(** * purdy: source parser and action-to-step compiler

    A shallow embedding of [purdy/parser.py] and [purdy/actions.py], with the
    properties of the parser (token classification, lexer detection, line
    assembly) and of the typewriter compiler proved over it. *)

From Stdlib Require Import List ZArith NArith QArith String Ascii Bool Lia.
From stdpp Require Import base gmap strings list.
From Equations Require Import Equations.
Import ListNotations.

Local Open Scope nat_scope.
Local Set Default Proof Using "Type".

(* ===================================================================== *)
(** * Python values used by the two modules *)
(* ===================================================================== *)

(** A Python [str] is a sequence of Unicode code points; [len], indexing and
    iteration count code points, not bytes.  The cursor glyph U+2588 is one
    character. *)
Definition str : Type := list N.

(** ASCII literals of the source, as code points. *)
Definition py (s : string) : str :=
  List.map N_of_ascii (list_ascii_of_string s).

Definition NL : N := 10.
Definition CR : N := 13.

(** Exceptions the modelled code can raise. *)
Inductive exn : Type :=
| IndexError
| KeyError
| ValueError.

Inductive result (A : Type) : Type :=
| Ok (a : A)
| Raise (e : exn).
Arguments Ok {A} a.
Arguments Raise {A} e.

Definition rbind {A B} (m : result A) (k : A -> result B) : result B :=
  match m with
  | Ok a => k a
  | Raise e => Raise e
  end.

#[global] Instance result_ret : MRet result := fun A a => Ok a.
#[global] Instance result_bind : MBind result := fun A B k m => rbind m k.
#[global] Instance result_fmap : FMap result :=
  fun A B f m => rbind m (fun a => Ok (f a)).

(** ** [str] methods *)

(** [s.startswith(prefix)] *)
Fixpoint startswith (s prefix : str) : bool :=
  match prefix, s with
  | [], _ => true
  | _ :: _, [] => false
  | p :: prefix', c :: s' => N.eqb c p && startswith s' prefix'
  end.

(** [needle in hay] for two strings. *)
Fixpoint str_in (needle hay : str) : bool :=
  startswith hay needle ||
  match hay with
  | [] => false
  | _ :: hay' => str_in needle hay'
  end.

(** [c in s] for a one-character needle. *)
Definition char_in (c : N) (s : str) : bool := existsb (N.eqb c) s.

(** [s.partition(sep)] for a one-character separator: the text before the
    first separator, the separator if it was found, the text after it. *)
Fixpoint partition (s : str) (sep : N) : str * str * str :=
  match s with
  | [] => ([], [], [])
  | c :: s' =>
      if N.eqb c sep then ([], [sep], s')
      else let '(h, m, t) := partition s' sep in (c :: h, m, t)
  end.

(** [s[-1]]: the last character; [IndexError] on the empty string. *)
Fixpoint last_char (s : str) : result N :=
  match s with
  | [] => Raise IndexError
  | [c] => Ok c
  | _ :: s' => last_char s'
  end.

(** [s.rstrip('\n')]: every trailing newline is removed. *)
Fixpoint rstrip_nl (s : str) : str :=
  match s with
  | [] => []
  | c :: s' =>
      match rstrip_nl s' with
      | [] => if N.eqb c NL then [] else [c]
      | r => c :: r
      end
  end.

(** The line boundaries of [str.splitlines]: LF, CR, VT, FF, FS, GS, RS, NEL,
    LINE SEPARATOR and PARAGRAPH SEPARATOR (CR LF counts as one). *)
Definition is_linebreak (c : N) : bool :=
  (N.eqb c 10 || N.eqb c 13 || N.eqb c 11 || N.eqb c 12 ||
   N.eqb c 28 || N.eqb c 29 || N.eqb c 30 || N.eqb c 133 ||
   N.eqb c 8232 || N.eqb c 8233)%bool.

(** [s.splitlines(True)], with [cur] the characters of the line being read
    (in order).  Every returned line keeps its line boundary; a last line
    without boundary is returned as it is; no empty line is ever returned. *)
Fixpoint splitlines_from (cur s : str) : list str :=
  match s with
  | [] => match cur with [] => [] | _ => [cur] end
  | c :: s' =>
      if is_linebreak c then
        if N.eqb c CR then
          match s' with
          | d :: s'' =>
              if N.eqb d NL then (cur ++ [c; d]) :: splitlines_from [] s''
              else (cur ++ [c]) :: splitlines_from [] s'
          | [] => (cur ++ [c]) :: splitlines_from [] s'
          end
        else (cur ++ [c]) :: splitlines_from [] s'
      else splitlines_from (cur ++ [c]) s'
  end.

Definition splitlines_keepends (s : str) : list str := splitlines_from [] s.

(** [''.join(ss)] *)
Definition join_empty (ss : list str) : str := List.concat ss.

(** ['\n'.join(ss)] *)
Fixpoint join_nl (ss : list str) : str :=
  match ss with
  | [] => []
  | [s] => s
  | s :: ss' => s ++ NL :: join_nl ss'
  end.

(* ===================================================================== *)
(** * Pygments token types *)
(* ===================================================================== *)

(** A pygments token type is the tuple of the names on its path from the
    root: [Token] is the empty tuple, [Token.Literal.String] is
    [("Literal", "String")].  Equality is tuple equality, [parent] drops the
    last name, and the root has parent [None]. *)
Definition TokenType : Type := list string.

Definition Token : TokenType := [].
Definition Token_Text : TokenType := ["Text"%string].
Definition Literal_String : TokenType := ["Literal"%string; "String"%string].
Definition Generic_Prompt : TokenType := ["Generic"%string; "Prompt"%string].
Definition Generic_Output : TokenType := ["Generic"%string; "Output"%string].
Definition Generic_Traceback : TokenType := ["Generic"%string; "Traceback"%string].

Definition parent (t : TokenType) : option TokenType :=
  match t with
  | [] => None
  | _ :: _ => Some (removelast t)
  end.

Definition token_eqb (t1 t2 : TokenType) : bool := bool_decide (t1 = t2).

(** [token in ancestor_list] *)
Definition token_in (t : TokenType) (l : list TokenType) : bool :=
  existsb (token_eqb t) l.

(** Number of [parent] links left to follow from an optional token. *)
Definition links (p : option TokenType) : nat :=
  match p with
  | None => 0
  | Some t => S (length t)
  end.

Lemma removelast_cons_length {A} (x : A) (l : list A) :
  length (removelast (x :: l)) = length l.
Proof.
  revert x. induction l as [|y l IH]; intros x; [reflexivity|].
  change (removelast (x :: y :: l)) with (x :: removelast (y :: l)).
  cbn [length]. f_equal. apply IH.
Qed.

Lemma parent_links t : links (parent t) < links (Some t).
Proof.
  destruct t as [|x t]; [cbn; lia|].
  cbn [parent links]. rewrite removelast_cons_length. cbn [length]. lia.
Qed.

(** The [while(parent != None)] loop of [token_is_a]. *)
Equations? token_is_a_loop (p : option TokenType) (token2 : TokenType) : bool
  by wf (links p) lt :=
  token_is_a_loop None _ := false;
  token_is_a_loop (Some t) token2 :=
    if token_eqb t token2 then true else token_is_a_loop (parent t) token2.
Proof. apply parent_links. Qed.

Definition token_is_a (token1 token2 : TokenType) : bool :=
  if token_eqb token1 token2 then true
  else token_is_a_loop (parent token1) token2.

(** The [while(token != None)] loop of [token_ancestor]. *)
Equations? token_ancestor_loop (p : option TokenType)
  (ancestor_list : list TokenType) : TokenType by wf (links p) lt :=
  token_ancestor_loop None _ := Token;
  token_ancestor_loop (Some t) ancestor_list :=
    if token_in t ancestor_list then t
    else token_ancestor_loop (parent t) ancestor_list.
Proof. apply parent_links. Qed.

Definition token_ancestor (token : TokenType) (ancestor_list : list TokenType)
  : TokenType :=
  if token_in token ancestor_list then token
  else token_ancestor_loop (parent token) ancestor_list.

(* ===================================================================== *)
(** * Purdy code representation *)
(* ===================================================================== *)

(** A lexer object: its class (the key of the registry's reverse lookup) and
    its [get_tokens] method, the stream of (token type, text) pairs it emits
    for a text.  The lexers themselves are pygments code. *)
Record Lexer : Type := mkLexer {
  lexer_class : string;
  get_tokens : str -> list (TokenType * str)
}.

(** [CodePart = namedtuple('CodePart', ['token', 'text'])] *)
Record CodePart : Type := mkCodePart {
  token : TokenType;
  text : str
}.

(** The attributes of a [CodeLine] object.  [line_text] is its [text]
    attribute. *)
Record CodeLine : Type := mkCodeLine {
  parts : list CodePart;
  line_number : Z;
  highlight : bool;
  lexer : Lexer;
  line_text : str
}.

(** [CodeLine.__init__(parts, lexer, line_number=-1, highlight=False)], on
    list values.  The constructor copies [parts]; the model with list
    objects in a store is [Store.CodeLine_init] below. *)
Definition CodeLine_init (parts : list CodePart) (lexer : Lexer)
  (line_number : Z) (highlight : bool) : CodeLine :=
  {| parts := parts;
     line_number := line_number;
     highlight := highlight;
     lexer := lexer;
     line_text := join_empty (List.map text parts) |}.

(** [CodeLine(parts, lexer)] with the default arguments. *)
Definition CodeLine_new (parts : list CodePart) (lexer : Lexer) : CodeLine :=
  CodeLine_init parts lexer (-1) false.

(* ===================================================================== *)
(** * The parser *)
(* ===================================================================== *)

(** The attributes of a [_Parser] object. *)
Record Parser : Type := mkParser {
  p_lexer : Lexer;
  p_lines : list CodeLine;
  p_parts : list CodePart
}.

(** [_Parser.__init__]; [parse] sets [parts] before its loop. *)
Definition Parser_init (lexer : Lexer) : Parser :=
  {| p_lexer := lexer; p_lines := []; p_parts := [] |}.

(** [self.lines.append(CodeLine(self.parts, self.lexer)); self.parts = []] *)
Definition flush (self : Parser) : Parser :=
  {| p_lexer := p_lexer self;
     p_lines := p_lines self ++ [CodeLine_new (p_parts self) (p_lexer self)];
     p_parts := [] |}.

(** [self.parts.append(part)] *)
Definition append_part (self : Parser) (part : CodePart) : Parser :=
  {| p_lexer := p_lexer self;
     p_lines := p_lines self;
     p_parts := p_parts self ++ [part] |}.

Definition newline_handler (self : Parser) (token : TokenType) : Parser :=
  let self1 :=
    match p_parts self with
    | [] => {| p_lexer := p_lexer self;
               p_lines := p_lines self;
               p_parts := [mkCodePart token []] |}
    | _ :: _ => self
    end in
  flush self1.

(** The body of the [for line in text.splitlines(True)] loop. *)
Definition string_handler_line (token : TokenType) (self : Parser) (line : str)
  : result Parser :=
  let part := mkCodePart token (rstrip_nl line) in
  let self1 := append_part self part in
  c ← last_char line;
  if N.eqb c NL then Ok (flush self1) else Ok self1.

Fixpoint string_handler_lines (token : TokenType) (self : Parser)
  (lines : list str) : result Parser :=
  match lines with
  | [] => Ok self
  | line :: lines' =>
      self1 ← string_handler_line token self line;
      string_handler_lines token self1 lines'
  end.

Definition string_handler (self : Parser) (token : TokenType) (text : str)
  : result Parser :=
  string_handler_lines token self (splitlines_keepends text).

Definition default_handler (self : Parser) (token : TokenType) (text : str)
  : result Parser :=
  c ← last_char text;
  if N.eqb c NL then
    Ok (flush (append_part self (mkCodePart token (rstrip_nl text))))
  else
    Ok (append_part self (mkCodePart token text)).

Definition str_eqb (a b : str) : bool := bool_decide (a = b).

(** The body of the loop of [parse], for one emitted pair. *)
Definition parse_pair (self : Parser) (tok_text : TokenType * str) : result Parser :=
  let (token_type, text) := tok_text in
  if str_eqb text [NL] then Ok (newline_handler self token_type)
  else if str_eqb text [] then Ok self
  else if token_is_a token_type Literal_String && char_in NL text
       then string_handler self token_type text
  else default_handler self token_type text.

Fixpoint parse_pairs (self : Parser) (pairs : list (TokenType * str))
  : result Parser :=
  match pairs with
  | [] => Ok self
  | tok_text :: pairs' =>
      self1 ← parse_pair self tok_text;
      parse_pairs self1 pairs'
  end.

(** [_Parser.parse(content)] *)
Definition parse (self : Parser) (content : str) : result Parser :=
  let self0 := {| p_lexer := p_lexer self;
                  p_lines := p_lines self;
                  p_parts := [] |} in
  parse_pairs self0 (get_tokens (p_lexer self) content).

Definition parse_source (source : str) (lexer : Lexer) : result (list CodeLine) :=
  parser ← parse (Parser_init lexer) source;
  Ok (p_lines parser).

(* ===================================================================== *)
(** * The lexer registry *)
(* ===================================================================== *)

(** The three pygments lexers of the registry are code of the pygments
    library; their [get_tokens] methods are taken as given. *)
Record Pygments : Type := mkPygments {
  PythonConsoleLexer_get_tokens : str -> list (TokenType * str);
  PythonLexer_get_tokens : str -> list (TokenType * str);
  BashSessionLexer_get_tokens : str -> list (TokenType * str)
}.

(** [LexerHolder = namedtuple('LexerHolder', ['name', 'lexer', 'description',
    'is_console'])] *)
Record LexerHolder : Type := mkLexerHolder {
  h_name : string;
  h_lexer : Lexer;
  h_description : string;
  h_is_console : bool
}.

Record LexerContainer : Type := mkLexerContainer {
  _lexers : gmap string LexerHolder;
  _reverse_lookup : gmap string LexerHolder
}.

(** A dict comprehension [{key(h): h for h in holders}]: a later holder
    replaces an earlier one under the same key. *)
Definition dict_of (key : LexerHolder -> string) (holders : list LexerHolder)
  : gmap string LexerHolder :=
  fold_left (fun m h => <[key h := h]> m) holders ∅.

Definition get_lexer (self : LexerContainer) (name : string) : result Lexer :=
  match _lexers self !! name with
  | Some h => Ok (h_lexer h)
  | None => Raise KeyError
  end.

Definition is_lexer_console (self : LexerContainer) (lexer : Lexer) : result bool :=
  match _reverse_lookup self !! lexer_class lexer with
  | Some holder => Ok (h_is_console holder)
  | None => Raise KeyError
  end.

Definition detect_lexer (self : LexerContainer) (source : str) : result Lexer :=
  if startswith source (py ">>> ") || str_in (NL :: py ">>> ") source then
    get_lexer self "con"
  else if startswith source (py "#!") then
    let first := fst (fst (partition source NL)) in
    if str_in (py "python") first then get_lexer self "py3"
    else if existsb (fun item => str_in item first) [py "/sh"; py "/bash"]
    then get_lexer self "bash"
    else get_lexer self "py3"
  else if startswith source (py "$ ") || str_in (NL :: py "$ ") source then
    get_lexer self "bash"
  else get_lexer self "py3".

(* ===================================================================== *)
(** * Steps, display surfaces and the random source *)
(* ===================================================================== *)

(** Modelled from the spec: the settings of a screen ([purdy.settings]):
    the base delay between two letters, in milliseconds, and the variance,
    the magnitude of the jitter around it. *)
Record Settings : Type := mkSettings {
  delay : Z;
  delay_variance : N
}.

Record Screen : Type := mkScreen {
  settings : Settings
}.

(** Modelled from the spec: the display surface ([purdy.ui.CodeBox]) is an
    opaque handle for the compiler.  It gives access to its screen, whose
    settings the typewriter reads, and it holds the rows it displays, which
    no action reads. *)
Record CodeBox : Type := mkCodeBox {
  screen : Screen;
  rows : list CodeLine
}.

(** [purdy.content.Code]: a source text and the lexer chosen for it. *)
Record Code : Type := mkCode {
  source : str;
  code_lexer : Lexer
}.

(** The content argument of a row step is one [CodeLine] or a list. *)
Inductive Rows : Type :=
| OneLine (line : CodeLine)
| ManyLines (lines : list CodeLine).

(** Modelled from the spec: the step vocabulary ([purdy.animation.cell]);
    a step records the arguments of its constructor call.  Durations are
    rationals: the rounding of Python floats is not modelled. *)
Inductive Step : Type :=
| AddRows (code_box : CodeBox) (lines : list CodeLine)
| InsertRows (code_box : CodeBox) (position : Z) (content : Rows)
| ReplaceRows (code_box : CodeBox) (position : Z) (content : Rows)
| RemoveRows (code_box : CodeBox) (position : Z) (size : option Z)
| Clear (code_box : CodeBox)
| SuffixRow (code_box : CodeBox) (position : Z) (source : str)
    (cursor : option bool)
| CellEnd
| StopMovie
| Sleep (duration : Q).

(** The state of the [random] module: the value the generator yields at
    each draw, and the number of draws made so far. *)
Record RandomSource : Type := mkRandomSource {
  draws : nat -> Z;
  drawn : nat
}.

(** Code that draws random numbers and may raise. *)
Definition Rand (A : Type) : Type := RandomSource -> result (A * RandomSource).

Definition rand_ret {A} (a : A) : Rand A := fun g => Ok (a, g).

Definition rand_bind {A B} (m : Rand A) (k : A -> Rand B) : Rand B :=
  fun g =>
    match m g with
    | Ok (a, g') => k a g'
    | Raise e => Raise e
    end.

Definition lift {A} (r : result A) : Rand A :=
  fun g =>
    match r with
    | Ok a => Ok (a, g)
    | Raise e => Raise e
    end.

#[global] Instance Rand_ret : MRet Rand := fun A a => rand_ret a.
#[global] Instance Rand_bind : MBind Rand := fun A B k m => rand_bind m k.

(** [random.randint(a, b)]: an integer of [[a, b]]; [ValueError] when the
    range is empty. *)
Definition randint (a b : Z) : Rand Z :=
  fun g =>
    if (b <? a)%Z then Raise ValueError
    else Ok ((a + draws g (drawn g) mod (b - a + 1))%Z,
             {| draws := draws g; drawn := S (drawn g) |}).

(* ===================================================================== *)
(** * Actions *)
(* ===================================================================== *)

Section Actions.

Context (pygments : Pygments).

Definition PythonConsoleLexer : Lexer :=
  {| lexer_class := "PythonConsoleLexer";
     get_tokens := PythonConsoleLexer_get_tokens pygments |}.

Definition PythonLexer : Lexer :=
  {| lexer_class := "PythonLexer";
     get_tokens := PythonLexer_get_tokens pygments |}.

Definition BashSessionLexer : Lexer :=
  {| lexer_class := "BashSessionLexer";
     get_tokens := BashSessionLexer_get_tokens pygments |}.

(** [LexerContainer.__init__] *)
Definition LexerContainer_init : LexerContainer :=
  let holders :=
    [ mkLexerHolder "con" PythonConsoleLexer "Python Console" true;
      mkLexerHolder "py3" PythonLexer "Python 3" false;
      mkLexerHolder "bash" BashSessionLexer "Bash Console" true ] in
  {| _lexers := dict_of h_name holders;
     _reverse_lookup := dict_of (fun h => lexer_class (h_lexer h)) holders |}.

Definition LEXERS : LexerContainer := LexerContainer_init.

(** ** Single code blob actions *)

Definition Append_steps (code_box : CodeBox) (code : Code) : result (list Step) :=
  lines ← parse_source (source code) (code_lexer code);
  Ok [AddRows code_box lines].

Definition Insert_steps (code_box : CodeBox) (position : Z) (code : Code)
  : result (list Step) :=
  lines ← parse_source (source code) (code_lexer code);
  Ok [InsertRows code_box position (ManyLines lines)].

Definition Replace_steps (code_box : CodeBox) (position : Z) (code : Code)
  : result (list Step) :=
  lines ← parse_source (source code) (code_lexer code);
  Ok [ReplaceRows code_box position (ManyLines lines)].

Definition Remove_steps (code_box : CodeBox) (position size : Z) : list Step :=
  [RemoveRows code_box position (Some size)].

Definition Clear_steps (code_box : CodeBox) : list Step := [Clear code_box].

Definition Suffix_steps (code_box : CodeBox) (position : Z) (source : str)
  : list Step :=
  [SuffixRow code_box position source None].

(** ** Typewriter actions *)

(** The attributes the typewriter actions share. *)
Record TypewriterStep : Type := mkTypewriterStep {
  code_box : CodeBox;
  code : Code;
  position : Z
}.

(** [TypewriterBase.continuous] *)
Definition continuous : list TokenType :=
  [Generic_Prompt; Generic_Output; Generic_Traceback].

(** The cursor fragment [CodePart(Token, '█')]. *)
Definition cursor_part : CodePart := mkCodePart Token [9608%N].

Definition delay_until_next_letter (box : CodeBox) : Rand Q :=
  let typing_delay := (inject_Z (delay (settings (screen box))) / 1000)%Q in
  let variance := Z.of_N (delay_variance (settings (screen box))) in
  r ← randint 0 (2 * variance);
  let vary_by := (r - variance)%Z in
  mret (typing_delay + inject_Z vary_by / 1000)%Q.

(** [l[-1] = x] *)
Definition set_last {A} (l : list A) (x : A) : result (list A) :=
  match l with
  | [] => Raise IndexError
  | _ :: _ => Ok (removelast l ++ [x])
  end.

(** [l[0]] *)
Definition first_item {A} (l : list A) : result A :=
  match l with
  | [] => Raise IndexError
  | x :: _ => Ok x
  end.

(** The [for letter in part.text] loop: [letters] are the letters still to
    type, [typewriter] the text typed so far. *)
Fixpoint letters_loop (self : TypewriterStep) (position : Z)
  (count num_parts : nat) (part : CodePart) (letters typewriter : str)
  (current_parts : list CodePart) (steps : list Step)
  : Rand (list CodePart * list Step) :=
  match letters with
  | [] => mret (current_parts, steps)
  | letter :: letters' =>
      let typewriter := typewriter ++ [letter] in
      let new_part := mkCodePart (token part) typewriter in
      current_parts ← lift (set_last current_parts new_part);
      let output_parts := current_parts in
      let is_last_part := Nat.eqb (count + 1) num_parts in
      let is_last_letter := Nat.eqb (length typewriter) (length (text part)) in
      let output_parts :=
        if negb (is_last_part && is_last_letter)
        then output_parts ++ [cursor_part] else output_parts in
      let row_line := CodeLine_new output_parts (code_lexer (code self)) in
      let steps :=
        steps ++ [ReplaceRows (code_box self) position (OneLine row_line)] in
      d ← delay_until_next_letter (code_box self);
      let steps := steps ++ [Sleep d] in
      letters_loop self position count num_parts part letters' typewriter
        current_parts steps
  end.

(** The [for count, part in enumerate(line.parts)] loop. *)
Fixpoint parts_loop (self : TypewriterStep) (position : Z)
  (num_parts count : nat) (ps : list CodePart)
  (current_parts : list CodePart) (steps : list Step)
  : Rand (list CodePart * list Step) :=
  match ps with
  | [] => mret (current_parts, steps)
  | part :: ps' =>
      if token_in (token part) continuous then
        let current_parts := current_parts ++ [part] in
        let row_line := CodeLine_new current_parts (code_lexer (code self)) in
        let steps :=
          steps ++ [ReplaceRows (code_box self) position (OneLine row_line)] in
        let steps :=
          if token_eqb (token part) Generic_Prompt
          then steps ++ [CellEnd] else steps in
        parts_loop self position num_parts (S count) ps' current_parts steps
      else
        let new_part := mkCodePart (token part) [] in
        let current_parts := current_parts ++ [new_part] in
        '(current_parts, steps) ←
          letters_loop self position count num_parts part (text part) []
            current_parts steps;
        parts_loop self position num_parts (S count) ps' current_parts steps
  end.

Definition _line_to_steps (self : TypewriterStep) (line : CodeLine)
  (position : Z) : Rand (list Step) :=
  first_part ← lift (first_item (parts line));
  let first_token := token first_part in
  is_console ← lift (is_lexer_console LEXERS (code_lexer (code self)));
  if is_console && negb (token_is_a first_token Generic_Prompt) then
    mret [InsertRows (code_box self) position (OneLine line)]
  else
    let dummy_parts := [mkCodePart Token []] in
    let row_line := CodeLine_new dummy_parts (code_lexer (code self)) in
    let steps := [InsertRows (code_box self) position (OneLine row_line)] in
    let num_parts := length (parts line) in
    '(_, steps) ← parts_loop self position num_parts 0 (parts line) [] steps;
    mret steps.

(** The [for count, line in enumerate(lines)] loop of
    [TypewriterStep.steps]. *)
Fixpoint lines_loop (self : TypewriterStep) (count : nat)
  (lines : list CodeLine) (steps : list Step) : Rand (list Step) :=
  match lines with
  | [] => mret steps
  | line :: lines' =>
      line_steps ← _line_to_steps self line (position self + Z.of_nat count);
      lines_loop self (S count) lines' (steps ++ line_steps)
  end.

Definition TypewriterStep_steps (self : TypewriterStep) : Rand (list Step) :=
  lines ← lift (parse_source (source (code self)) (code_lexer (code self)));
  lines_loop self 0 lines [].

(** [AppendTypewriter.__init__] *)
Definition AppendTypewriter (code_box : CodeBox) (code : Code) : TypewriterStep :=
  {| code_box := code_box; code := code; position := 1 |}.

(** [InsertTypewriter.__init__] *)
Definition InsertTypewriter (code_box : CodeBox) (position : Z) (code : Code)
  : TypewriterStep :=
  {| code_box := code_box; code := code; position := position |}.

(** [ReplaceTypewriter.steps]: each line's old row is removed first. *)
Fixpoint replace_lines_loop (self : TypewriterStep) (count : nat)
  (lines : list CodeLine) (steps : list Step) : Rand (list Step) :=
  match lines with
  | [] => mret steps
  | line :: lines' =>
      let step :=
        RemoveRows (code_box self) (position self + Z.of_nat count) None in
      let steps := steps ++ [step] in
      line_steps ← _line_to_steps self line (position self + Z.of_nat count);
      replace_lines_loop self (S count) lines' (steps ++ line_steps)
  end.

Definition ReplaceTypewriter_steps (self : TypewriterStep) : Rand (list Step) :=
  lines ← lift (parse_source (source (code self)) (code_lexer (code self)));
  replace_lines_loop self 0 lines [].

(** ** Control actions *)

Definition Wait_steps : list Step := [CellEnd].
Definition StopMovie_steps : list Step := [StopMovie].

End Actions.

(* ===================================================================== *)
(** * [CodeLine] over a store of list objects *)
(* ===================================================================== *)

(** Python lists are objects: the caller of [CodeLine(parts, lexer)] keeps a
    reference to [parts] and may mutate it later.  Here a list is a location
    of a store, and [copy] allocates a new list object. *)
Module Store.

Abbreviation loc := positive.

Abbreviation store := (gmap positive (list CodePart)).

Record CodeLineObj : Type := mkCodeLineObj {
  o_parts : loc;
  o_line_number : Z;
  o_highlight : bool;
  o_lexer : Lexer;
  o_text : str
}.

(** [copy(parts)]: a new list object holding the same items. *)
Definition copy (r : loc) (σ : store) : option (loc * store) :=
  match σ !! r with
  | Some items =>
      let r' := fresh (dom σ) in
      Some (r', <[r' := items]> σ)
  | None => None
  end.

(** [CodeLine.__init__]: [self.parts = copy(parts)], then [self.text] is
    joined from the texts of [parts]. *)
Definition CodeLine_init (parts_ref : loc) (lexer : Lexer) (line_number : Z)
  (highlight : bool) (σ : store) : option (CodeLineObj * store) :=
  match copy parts_ref σ with
  | Some (own, σ1) =>
      match σ1 !! parts_ref with
      | Some items =>
          Some ({| o_parts := own;
                   o_line_number := line_number;
                   o_highlight := highlight;
                   o_lexer := lexer;
                   o_text := join_empty (List.map text items) |}, σ1)
      | None => None
      end
  | None => None
  end.

(** An in-place mutation of the list object at [r]: [append], [clear],
    item assignment, [pop], ... each is a function on the items. *)
Definition mutate (r : loc) (f : list CodePart -> list CodePart) (σ : store)
  : store :=
  alter f r σ.

Definition mutations (r : loc) (fs : list (list CodePart -> list CodePart))
  (σ : store) : store :=
  fold_left (fun σ' f => mutate r f σ') fs σ.

(** [l.append(x)], [l.clear()] and [l[i] = x] as mutations. *)
Definition list_append (x : CodePart) : list CodePart -> list CodePart :=
  fun l => l ++ [x].
Definition list_clear : list CodePart -> list CodePart := fun _ => [].
Definition list_setitem (i : nat) (x : CodePart)
  : list CodePart -> list CodePart :=
  fun l => <[i := x]> l.

(** The line as a value: its attributes with the items of its own list. *)
Definition read (σ : store) (line : CodeLineObj) : option CodeLine :=
  match σ !! o_parts line with
  | Some items =>
      Some {| parts := items;
              line_number := o_line_number line;
              highlight := o_highlight line;
              lexer := o_lexer line;
              line_text := o_text line |}
  | None => None
  end.

(** [text == ''.join(part.text for part in parts)] *)
Definition text_invariant (σ : store) (line : CodeLineObj) : Prop :=
  exists items,
    σ !! o_parts line = Some items /\
    o_text line = join_empty (List.map text items).

End Store.

(* ===================================================================== *)
(** * Specification-side definitions *)
(* ===================================================================== *)

(** ** Logical source lines *)

(** Feeding characters to a pending line: a newline completes the pending
    line, any other character extends it.  The result is the completed
    lines and the text still pending. *)
Fixpoint feed_chars (pending : str) (s : str) : list str * str :=
  match s with
  | [] => ([], pending)
  | c :: s' =>
      if N.eqb c NL then
        let (ls, q) := feed_chars [] s' in (pending :: ls, q)
      else feed_chars (pending ++ [c]) s'
  end.

(** The newline-terminated lines of a text, and the text after its last
    newline. *)
Definition terminated_lines (s : str) : list str := fst (feed_chars [] s).
Definition unterminated_tail (s : str) : str := snd (feed_chars [] s).

(** What a parser state shows: the texts of its lines and the pending
    text. *)
Definition pending_text (self : Parser) : str :=
  join_empty (List.map text (p_parts self)).

Definition shown (self : Parser) : list str * str :=
  (List.map line_text (p_lines self), pending_text self).

Definition advance (o : list str * str) (s : str) : list str * str :=
  let (ls, q) := feed_chars (snd o) s in (fst o ++ ls, q).

(** [self'] is [self] after text [x] was fed to it: the lines shown grow by
    the lines [x] completes, the lexer stays, and the lines already there
    are kept. *)
Definition follows (self self' : Parser) (x : str) : Prop :=
  shown self' = advance (shown self) x /\
  p_lexer self' = p_lexer self /\
  exists new, p_lines self' = p_lines self ++ new.

(** A line built by the parser for [lx]: it has at least one fragment, it
    belongs to [lx], it carries the default attributes, and its text is the
    concatenation of its fragments' texts. *)
Definition parsed_line (lx : Lexer) (l : CodeLine) : Prop :=
  parts l <> [] /\ lexer l = lx /\ line_number l = (-1)%Z /\
  highlight l = false /\ line_text l = join_empty (List.map text (parts l)).

Definition parsed_lines (self : Parser) : Prop :=
  Forall (parsed_line (p_lexer self)) (p_lines self).

(** A line with its newline. *)
Definition with_newline (l : str) : str := l ++ [NL].

(** The pair carries no newline. *)
Definition newline_free_pair (p : TokenType * str) : bool :=
  negb (char_in NL (snd p)).

(** The fragments a newline pair of type [tok] flushes: the accumulated
    ones, or a single empty fragment when there is none. *)
Definition flushed_fragments (self : Parser) (tok : TokenType) : list CodePart :=
  match p_parts self with
  | [] => [mkCodePart tok []]
  | _ :: _ => p_parts self
  end.

(** A tokenizer matches a text when its pairs concatenate back to it. *)
Definition token_texts (pairs : list (TokenType * str)) : str :=
  List.concat (List.map snd pairs).

Definition matching (lexer : Lexer) (s : str) : Prop :=
  token_texts (get_tokens lexer s) = s.

(** The pair takes the multi-line string rule of [parse]. *)
Definition is_multiline_string (tok_text : TokenType * str) : bool :=
  token_is_a (fst tok_text) Literal_String && char_in NL (snd tok_text).

(** Outside the multi-line string rule, the pair carries a newline at most
    as its last character. *)
Definition newline_only_last (tok_text : TokenType * str) : bool :=
  is_multiline_string tok_text || negb (char_in NL (removelast (snd tok_text))).

(** Equal up to a single optional trailing newline. *)
Definition same_upto_newline (a b : str) : Prop :=
  a = b \/ a ++ [NL] = b \/ a = b ++ [NL].

(** The round-trip property as the specification states it, for one text
    and one tokenizer. *)
Definition roundtrip_as_stated (s : str) (lexer : Lexer) : Prop :=
  matching lexer s ->
  exists lines,
    parse_source s lexer = Ok lines /\
    Forall (fun l => char_in NL (line_text l) = false) lines /\
    same_upto_newline (join_nl (List.map line_text lines)) s.

(** ** The string rule as the specification words it *)





(** ** Token ancestors *)

(** The chain of a token's ancestors, nearest first, ending at the root. *)
Equations? parent_chain (p : option TokenType) : list TokenType
  by wf (links p) lt :=
  parent_chain None := [];
  parent_chain (Some t) := t :: parent_chain (parent t).
Proof. apply parent_links. Qed.

Definition ancestors (t : TokenType) : list TokenType :=
  parent_chain (parent t).

(** The first approved token of a chain, or the root [Token]. *)
Definition first_approved (l chain : list TokenType) : TokenType :=
  match List.find (fun a => token_in a l) chain with
  | Some a => a
  | None => Token
  end.

(** ** Lexer detection as the specification words it *)

(** The lines of a text, split at newlines. *)
Fixpoint split_lines (s : str) : list str :=
  match s with
  | [] => [[]]
  | c :: s' =>
      if N.eqb c NL then [] :: split_lines s'
      else match split_lines s' with
           | l :: ls => (c :: l) :: ls
           | [] => [[c]]
           end
  end.

(** "The text starts with or contains a line starting with [prefix]". *)
Definition has_line_starting (prefix s : str) : bool :=
  existsb (fun l => startswith l prefix) (split_lines s).

(** The first line of the text. *)
Definition first_line (s : str) : str := hd [] (split_lines s).

Definition shebang (s : str) : bool := startswith s (py "#!").

(** The five rules in the stated order, the first matching rule winning;
    the result is the registry name of the lexer. *)
Definition detect_as_stated (s : str) : string :=
  if has_line_starting (py ">>> ") s then "con"
  else if shebang s && str_in (py "python") (first_line s) then "py3"
  else if shebang s && (str_in (py "/sh") (first_line s) ||
                        str_in (py "/bash") (first_line s)) then "bash"
  else if has_line_starting (py "$ ") s then "bash"
  else "py3".

(** The rules with the fourth one restricted to texts without shebang. *)
Definition detect_amended (s : str) : string :=
  if has_line_starting (py ">>> ") s then "con"
  else if shebang s && str_in (py "python") (first_line s) then "py3"
  else if shebang s && (str_in (py "/sh") (first_line s) ||
                        str_in (py "/bash") (first_line s)) then "bash"
  else if negb (shebang s) && has_line_starting (py "$ ") s then "bash"
  else "py3".

(** ** Typewriter rows *)

(** The position a step carries, if any. *)
Definition step_position (s : Step) : option Z :=
  match s with
  | InsertRows _ p _ | ReplaceRows _ p _ | RemoveRows _ p _
  | SuffixRow _ p _ _ => Some p
  | _ => None
  end.

Definition is_ReplaceRows (s : Step) : bool :=
  match s with ReplaceRows _ _ _ => true | _ => false end.

Definition is_Sleep (s : Step) : bool :=
  match s with Sleep _ => true | _ => false end.

Definition is_CellEnd (s : Step) : bool :=
  match s with CellEnd => true | _ => false end.

(** The row shown after [i] characters of the only fragment [(tok, txt)] of
    a line were typed: the typed prefix, followed by the cursor fragment
    unless everything is typed. *)
Definition typed_row (lexer : Lexer) (tok : TokenType) (txt : str) (i : nat)
  : CodeLine :=
  CodeLine_new
    (mkCodePart tok (firstn i txt) ::
     if Nat.ltb i (length txt) then [cursor_part] else [])
    lexer.

(** The two steps for the [i]-th character typed, with its delay. *)
Definition typed_pair (box : CodeBox) (pos : Z) (lx : Lexer) (tok : TokenType)
  (txt : str) (id : nat * Q) : list Step :=
  [ReplaceRows box pos (OneLine (typed_row lx tok txt (fst id)));
   Sleep (snd id)].

(** The steps that type [letters] after [typed], with the delays [ds]:
    one [ReplaceRows] and one [Sleep] per letter.  [cp] are the fragments
    before the one being typed, [full] is the length of its text, and
    [last_part] tells whether it is the last fragment of the line. *)
Fixpoint reveal_steps (box : CodeBox) (pos : Z) (lx : Lexer)
  (cp : list CodePart) (tok : TokenType) (last_part : bool) (full : nat)
  (typed letters : str) (ds : list Q) : list Step :=
  match letters, ds with
  | c :: letters', d :: ds' =>
      let typed' := typed ++ [c] in
      ReplaceRows box pos
        (OneLine (CodeLine_new
           (if negb (last_part && Nat.eqb (length typed') full)
            then (cp ++ [mkCodePart tok typed']) ++ [cursor_part]
            else cp ++ [mkCodePart tok typed'])
           lx)) ::
      Sleep d ::
      reveal_steps box pos lx cp tok last_part full typed' letters' ds'
  | _, _ => []
  end.

(** A step that carries a position carries [pos]. *)
Definition at_position (pos : Z) (s : Step) : Prop :=
  forall p, step_position s = Some p -> p = pos.

(** Compiling lines at given positions, one after the other. *)
Fixpoint compile_each (pygments : Pygments) (self : TypewriterStep)
  (items : list (CodeLine * Z)) : Rand (list Step) :=
  match items with
  | [] => mret []
  | (line, pos) :: items' =>
      a ← _line_to_steps pygments self line pos;
      b ← compile_each pygments self items';
      mret (a ++ b)
  end.

(* ===================================================================== *)
(** * Further actions *)
(* ===================================================================== *)

(** The [for count, letter in enumerate(self.source)] loop of
    [SuffixTypewriter.steps]; [len] is [len(self.source)]. *)
Fixpoint suffix_loop (box : CodeBox) (position : Z) (len count : nat)
  (letters : str) (steps : list Step) : Rand (list Step) :=
  match letters with
  | [] => mret steps
  | letter :: letters' =>
      let cursor := negb (Nat.eqb (count + 1) len) in
      d ← delay_until_next_letter box;
      suffix_loop box position len (S count) letters'
        (steps ++ [SuffixRow box position [letter] (Some cursor); Sleep d])
  end.

Definition SuffixTypewriter_steps (box : CodeBox) (position : Z) (source : str)
  : Rand (list Step) :=
  suffix_loop box position (length source) 0 source [].

(* ===================================================================== *)
(** * Further specification-side definitions *)
(* ===================================================================== *)

(** ** The parser *)

(** The text a parser state holds: every line with its newline, then the
    pending text. *)
Definition held_text (self : Parser) : str :=
  List.concat (List.map with_newline (List.map line_text (p_lines self))) ++
  pending_text self.

(** The text ends with two newlines. *)
Definition ends_double_newline (x : str) : bool :=
  match rev x with
  | a :: b :: _ => N.eqb a NL && N.eqb b NL
  | _ => false
  end.

(** Outside the multi-line string rule, the pair does not end with two
    newlines. *)
Definition no_double_newline (tok_text : TokenType * str) : bool :=
  is_multiline_string tok_text || negb (ends_double_newline (snd tok_text)).

(** The parser with [before] in front of its lines. *)
Definition with_lines_before (before : list CodeLine) (self : Parser) : Parser :=
  {| p_lexer := p_lexer self;
     p_lines := before ++ p_lines self;
     p_parts := p_parts self |}.

(** The pair has a text. *)
Definition has_text (tok_text : TokenType * str) : bool :=
  negb (str_eqb (snd tok_text) []).

(** ** The typewriter *)

(** The steps that animate the fragments [ps] of a line after the fragments
    [cp], with the delays [ds]: a continuous fragment is shown at once
    (followed by [CellEnd] for a prompt), any other is typed letter by
    letter. *)
Fixpoint animation (box : CodeBox) (pos : Z) (lx : Lexer) (num count : nat)
  (cp ps : list CodePart) (ds : list Q) : list Step :=
  match ps with
  | [] => []
  | part :: ps' =>
      if token_in (token part) continuous then
        ReplaceRows box pos (OneLine (CodeLine_new (cp ++ [part]) lx)) ::
        (if token_eqb (token part) Generic_Prompt then [CellEnd] else []) ++
        animation box pos lx num (S count) (cp ++ [part]) ps' ds
      else
        reveal_steps box pos lx cp (token part) (Nat.eqb (count + 1) num)
          (length (text part)) [] (text part)
          (firstn (length (text part)) ds) ++
        animation box pos lx num (S count) (cp ++ [part]) ps'
          (skipn (length (text part)) ds)
  end.

(** The number of letters the typewriter types for the fragments [ps]. *)
Fixpoint typed_letters (ps : list CodePart) : nat :=
  match ps with
  | [] => 0
  | part :: ps' =>
      (if token_in (token part) continuous then 0 else length (text part)) +
      typed_letters ps'
  end.

(** The row a list of steps leaves on display: the content of its last
    [InsertRows] or [ReplaceRows], [shown_before] if there is none. *)
Fixpoint last_shown (shown_before : option Rows) (steps : list Step)
  : option Rows :=
  match steps with
  | [] => shown_before
  | InsertRows _ _ c :: steps' => last_shown (Some c) steps'
  | ReplaceRows _ _ c :: steps' => last_shown (Some c) steps'
  | _ :: steps' => last_shown shown_before steps'
  end.

(** The last fragment is shown whole: it is continuous, or it has letters
    to type. *)
Definition ends_visibly (ps : list CodePart) : bool :=
  match rev ps with
  | [] => false
  | part :: _ =>
      token_in (token part) continuous || negb (str_eqb (text part) [])
  end.

(** Compiling lines at given positions, each after the steps [before]
    gives for its position. *)
Fixpoint compile_each_after (pygments : Pygments) (self : TypewriterStep)
  (before : Z -> list Step) (items : list (CodeLine * Z)) : Rand (list Step) :=
  match items with
  | [] => mret []
  | (line, pos) :: items' =>
      a ← _line_to_steps pygments self line pos;
      b ← compile_each_after pygments self before items';
      mret (before pos ++ a ++ b)
  end.

(** The fragments shown at once, and those followed by a pause for a key
    press. *)
Definition continuous_parts (ps : list CodePart) : nat :=
  length (List.filter (fun p => token_in (token p) continuous) ps).

Definition prompt_parts (ps : list CodePart) : nat :=
  length (List.filter (fun p => token_eqb (token p) Generic_Prompt) ps).

Definition count_steps (f : Step -> bool) (steps : list Step) : nat :=
  length (List.filter f steps).

(** The steps of [SuffixTypewriter] for the letters left, with their
    delays. *)
Fixpoint suffix_steps (box : CodeBox) (pos : Z) (len count : nat)
  (letters : str) (ds : list Q) : list Step :=
  match letters, ds with
  | c :: letters', d :: ds' =>
      SuffixRow box pos [c] (Some (negb (Nat.eqb (count + 1) len))) ::
      Sleep d :: suffix_steps box pos len (S count) letters' ds'
  | _, _ => []
  end.

(** The text and cursor flag of every [SuffixRow] of a list of steps. *)
Fixpoint suffix_rows (steps : list Step) : list (str * option bool) :=
  match steps with
  | [] => []
  | SuffixRow _ _ s c :: steps' => (s, c) :: suffix_rows steps'
  | _ :: steps' => suffix_rows steps'
  end.

Definition is_RemoveRows (s : Step) : bool :=
  match s with RemoveRows _ _ _ => true | _ => false end.

(** A step of an animation after the row was inserted. *)
Definition animated_step (s : Step) : Prop :=
  is_ReplaceRows s || is_Sleep s || is_CellEnd s = true.

(** The positions of the lines of a typewriter action, in order. *)
Definition line_positions (self : TypewriterStep) (lines : list CodeLine)
  : list (CodeLine * Z) :=
  combine lines
    (List.map (fun i => (position self + Z.of_nat i)%Z) (seq 0 (length lines))).

(** The step that removes the row at a position, with the default size. *)
Definition remove_row (self : TypewriterStep) (pos : Z) : list Step :=
  [RemoveRows (code_box self) pos None].

(** The row of a [ReplaceRows] step shows a prefix of [full], alone or
    followed by the cursor glyph. *)
Definition shows_prefix (full : str) (s : Step) : Prop :=
  match s with
  | ReplaceRows _ _ (OneLine l) =>
      exists pre suf,
        full = pre ++ suf /\
        (line_text l = pre \/ line_text l = pre ++ [9608%N])
  | ReplaceRows _ _ (ManyLines _) => False
  | _ => True
  end.

(** The class names of the registry. *)
Definition registered_class (c : string) : bool :=
  String.eqb c "PythonConsoleLexer" || String.eqb c "PythonLexer" ||
  String.eqb c "BashSessionLexer".

(* ===================================================================== *)
(** * Sample objects *)
(* ===================================================================== *)

(** A lexer that emits the whole text as one [Token.Text] pair. *)
Definition whole_get_tokens (s : str) : list (TokenType * str) :=
  [(Token_Text, s)].

(** A lexer in the style of pygments: the text gets a final newline when it
    has none, and each line is emitted as one pair followed by a newline
    pair. *)
Definition ensurenl (s : str) : str :=
  match last_char s with
  | Ok c => if N.eqb c NL then s else s ++ [NL]
  | Raise _ => s ++ [NL]
  end.

Definition line_get_tokens (tok : TokenType) (s : str)
  : list (TokenType * str) :=
  flat_map (fun l => [(tok, l); (Token_Text, [NL])])
    (terminated_lines (ensurenl s)).

Definition sample_pygments : Pygments :=
  {| PythonConsoleLexer_get_tokens := line_get_tokens Generic_Output;
     PythonLexer_get_tokens := line_get_tokens Token_Text;
     BashSessionLexer_get_tokens := line_get_tokens Generic_Output |}.

Definition line_lexer : Lexer :=
  {| lexer_class := "PythonLexer"; get_tokens := line_get_tokens Token_Text |}.

Definition whole_lexer : Lexer :=
  {| lexer_class := "WholeLexer"; get_tokens := whole_get_tokens |}.

Definition sample_box : CodeBox :=
  {| screen := {| settings := {| delay := 130; delay_variance := 30 |} |};
     rows := [] |}.

Definition sample_random : RandomSource :=
  {| draws := fun n => (Z.of_nat n * 7)%Z; drawn := 0 |}.

Definition console_code : Code :=
  {| source := py "hello" ++ [NL];
     code_lexer := PythonConsoleLexer sample_pygments |}.

Definition python_code : Code :=
  {| source := py "ab" ++ [NL] ++ py "c" ++ [NL];
     code_lexer := PythonLexer sample_pygments |}.

(* ===================================================================== *)
(** * Strings *)
(* ===================================================================== *)

Lemma char_in_app c a b : char_in c (a ++ b) = char_in c a || char_in c b.
Proof. unfold char_in. apply existsb_app. Qed.

Lemma char_in_cons_false c d s :
  char_in c (d :: s) = false <-> N.eqb c d = false /\ char_in c s = false.
Proof. unfold char_in. cbn [existsb]. apply orb_false_iff. Qed.

Lemma last_char_app b c : last_char (b ++ [c]) = Ok c.
Proof.
  induction b as [|x b IH]; [reflexivity|].
  cbn [app last_char]. destruct (b ++ [c]) eqn:E; [|exact IH].
  destruct b; discriminate.
Qed.

Lemma nonempty_snoc {A} (s : list A) :
  s <> [] -> exists b c, s = b ++ [c].
Proof.
  intros H. destruct (exists_last H) as (b & c & ->). eauto.
Qed.

Lemma removelast_snoc {A} (b : list A) c : removelast (b ++ [c]) = b.
Proof. apply removelast_last. Qed.

Lemma char_in_removelast c s :
  char_in c s = false -> char_in c (removelast s) = false.
Proof.
  intros H. destruct s as [|x s _] using rev_ind; [reflexivity|].
  rewrite removelast_snoc. rewrite char_in_app in H.
  now apply orb_false_iff in H.
Qed.

Lemma rstrip_nl_free b : char_in NL b = false -> rstrip_nl b = b.
Proof.
  induction b as [|x b IH]; [reflexivity|].
  intros H. apply char_in_cons_false in H as [Hx Hb].
  cbn [rstrip_nl]. rewrite (IH Hb).
  destruct b; [|reflexivity].
  rewrite N.eqb_sym, Hx. reflexivity.
Qed.

Lemma rstrip_nl_snoc_nl b : char_in NL b = false -> rstrip_nl (b ++ [NL]) = b.
Proof.
  induction b as [|x b IH]; [reflexivity|].
  intros H. apply char_in_cons_false in H as [Hx Hb].
  cbn [app rstrip_nl]. rewrite (IH Hb).
  destruct b; [|reflexivity].
  rewrite N.eqb_sym, Hx. reflexivity.
Qed.

Lemma feed_chars_free p b :
  char_in NL b = false -> feed_chars p b = ([], p ++ b).
Proof.
  revert p. induction b as [|x b IH]; intros p H.
  - cbn. now rewrite app_nil_r.
  - apply char_in_cons_false in H as [Hx Hb].
    cbn [feed_chars]. rewrite N.eqb_sym, Hx, (IH _ Hb).
    now rewrite <- app_assoc.
Qed.

Lemma feed_chars_app p a b :
  feed_chars p (a ++ b) =
  let (l1, q) := feed_chars p a in
  let (l2, r) := feed_chars q b in (l1 ++ l2, r).
Proof.
  revert p. induction a as [|x a IH]; intros p.
  - cbn. now destruct (feed_chars p b).
  - cbn [app feed_chars]. destruct (N.eqb x NL).
    + rewrite IH. destruct (feed_chars [] a) as [l1 q].
      now destruct (feed_chars q b).
    + apply IH.
Qed.

Lemma feed_chars_snoc_nl p b :
  char_in NL b = false -> feed_chars p (b ++ [NL]) = ([p ++ b], []).
Proof.
  intros H. rewrite feed_chars_app, (feed_chars_free _ _ H). reflexivity.
Qed.

Lemma advance_nil o : advance o [] = o.
Proof. destruct o as [ls q]. unfold advance. cbn. now rewrite app_nil_r. Qed.

Lemma advance_app o a b : advance o (a ++ b) = advance (advance o a) b.
Proof.
  destruct o as [ls p]. unfold advance. cbn [fst snd].
  rewrite feed_chars_app. destruct (feed_chars p a) as [l1 q].
  cbn [fst snd]. destruct (feed_chars q b) as [l2 r].
  now rewrite app_assoc.
Qed.

Lemma advance_free ls p b :
  char_in NL b = false -> advance (ls, p) b = (ls, p ++ b).
Proof.
  intros H. unfold advance. cbn [fst snd]. rewrite (feed_chars_free _ _ H).
  now rewrite app_nil_r.
Qed.

Lemma advance_snoc_nl ls p b :
  char_in NL b = false -> advance (ls, p) (b ++ [NL]) = (ls ++ [p ++ b], []).
Proof.
  intros H. unfold advance. cbn [fst snd].
  now rewrite (feed_chars_snoc_nl _ _ H).
Qed.

(* ===================================================================== *)
(** * The parser: what a state shows *)
(* ===================================================================== *)

Lemma follows_nil self : follows self self [].
Proof.
  split; [now rewrite advance_nil|]. split; [reflexivity|].
  exists []. now rewrite app_nil_r.
Qed.

Lemma follows_trans a b c x y :
  follows a b x -> follows b c y -> follows a c (x ++ y).
Proof.
  intros (H1 & L1 & n1 & E1) (H2 & L2 & n2 & E2).
  split; [now rewrite advance_app, <- H1|].
  split; [congruence|].
  exists (n1 ++ n2). now rewrite E2, E1, app_assoc.
Qed.

Lemma pending_text_append self part :
  pending_text (append_part self part) = pending_text self ++ text part.
Proof.
  unfold pending_text, join_empty. cbn [append_part p_parts].
  rewrite List.map_app, concat_app. cbn. now rewrite app_nil_r.
Qed.

Lemma follows_append self tok b :
  char_in NL b = false -> follows self (append_part self (mkCodePart tok b)) b.
Proof.
  intros H. split; [|split; [reflexivity|exists []; cbn; now rewrite app_nil_r]].
  unfold shown. rewrite pending_text_append. cbn [text append_part p_lines].
  now rewrite advance_free.
Qed.

Lemma follows_flush self :
  follows self (flush self) [NL].
Proof.
  split; [|split; [reflexivity|eexists; reflexivity]].
  unfold shown. cbn [flush p_lines]. rewrite List.map_app. cbn [List.map].
  rewrite (advance_snoc_nl _ (pending_text self) []) by reflexivity.
  now rewrite app_nil_r.
Qed.

Lemma follows_append_flush self tok b :
  char_in NL b = false ->
  follows self (flush (append_part self (mkCodePart tok b))) (b ++ [NL]).
Proof.
  intros H. eapply follows_trans; [apply follows_append, H|apply follows_flush].
Qed.

Lemma follows_newline self tok :
  follows self (newline_handler self tok) [NL].
Proof.
  unfold newline_handler. destruct (p_parts self) eqn:E.
  - split; [|split; [reflexivity|eexists; reflexivity]].
    unfold shown, pending_text. cbn [flush p_lines p_parts].
    rewrite List.map_app, E. cbn [List.map join_empty concat text app].
    now rewrite (advance_snoc_nl _ [] []) by reflexivity.
  - apply follows_flush.
Qed.

(** ** The string rule *)

Lemma string_handler_line_nl tok self b :
  char_in NL b = false ->
  string_handler_line tok self (b ++ [NL]) =
  Ok (flush (append_part self (mkCodePart tok b))).
Proof.
  intros H. unfold string_handler_line.
  rewrite last_char_app, (rstrip_nl_snoc_nl _ H). reflexivity.
Qed.

Lemma string_handler_line_free tok self b c :
  char_in NL (b ++ [c]) = false ->
  string_handler_line tok self (b ++ [c]) =
  Ok (append_part self (mkCodePart tok (b ++ [c]))).
Proof.
  intros H. unfold string_handler_line.
  rewrite last_char_app, (rstrip_nl_free _ H).
  rewrite char_in_app in H. apply orb_false_iff in H as [_ H].
  apply char_in_cons_false in H as [H _].
  cbn [mbind result_bind rbind]. rewrite (N.eqb_sym c NL), H. reflexivity.
Qed.

Lemma is_linebreak_NL c : is_linebreak c = false -> N.eqb NL c = false.
Proof.
  unfold is_linebreak. intros H. rewrite !orb_false_iff in H.
  rewrite N.eqb_sym. apply H.
Qed.

Lemma char_in_snoc_free cur c :
  char_in NL cur = false -> N.eqb NL c = false ->
  char_in NL (cur ++ [c]) = false.
Proof.
  intros H1 H2. rewrite char_in_app, H1. unfold char_in. cbn [existsb orb].
  now rewrite H2.
Qed.

Lemma string_handler_lines_cons tok self seg segs self1 :
  string_handler_line tok self seg = Ok self1 ->
  string_handler_lines tok self (seg :: segs) =
  string_handler_lines tok self1 segs.
Proof. intros H. cbn [string_handler_lines]. now rewrite H. Qed.

(** Scanning with [str.splitlines]: whatever the other line boundaries
    cut, the state ends up showing the text fed at its newlines. *)
Lemma splitlines_scan tok : forall n s cur self,
  length s <= n ->
  char_in NL cur = false ->
  exists self',
    string_handler_lines tok self (splitlines_from cur s) = Ok self' /\
    follows self self' (cur ++ s).
Proof.
  induction n as [|n IH]; intros s cur self Hn Hcur.
  - destruct s; [|cbn in Hn; lia].
    cbn [splitlines_from]. rewrite app_nil_r.
    destruct cur as [|x cur] using rev_ind.
    + eexists; split; [reflexivity|apply follows_nil].
    + clear IHcur. destruct (cur ++ [x]) eqn:E; [destruct cur; discriminate|].
      rewrite <- E in *. cbn [string_handler_lines].
      rewrite (string_handler_line_free _ _ _ _ Hcur). cbn.
      eexists; split; [reflexivity|]. now apply follows_append.
  - destruct s as [|c s].
    { apply (IH [] cur self); [cbn; lia|exact Hcur]. }
    cbn in Hn. cbn [splitlines_from].
    destruct (is_linebreak c) eqn:Hlb.
    + (* a line boundary ends the segment *)
      assert (Hone : forall rest, length rest <= n ->
        exists self',
          string_handler_lines tok self
            ((cur ++ [c]) :: splitlines_from [] rest) = Ok self' /\
          follows self self' (cur ++ c :: rest)).
      { intros rest Hrest. destruct (N.eqb c NL) eqn:Hc.
        - apply N.eqb_eq in Hc. subst c.
          rewrite (string_handler_lines_cons _ _ _ _ _
                     (string_handler_line_nl tok self cur Hcur)).
          destruct (IH rest [] (flush (append_part self (mkCodePart tok cur))))
            as (self' & E & F); [lia|reflexivity|].
          exists self'. split; [exact E|].
          change (cur ++ NL :: rest) with (cur ++ [NL] ++ [] ++ rest).
          rewrite app_assoc.
          eapply follows_trans; [now apply follows_append_flush|exact F].
        - assert (Hfree : char_in NL (cur ++ [c]) = false).
          { apply char_in_snoc_free; [exact Hcur|now rewrite N.eqb_sym]. }
          rewrite (string_handler_lines_cons _ _ _ _ _
                     (string_handler_line_free tok self cur c Hfree)).
          destruct (IH rest []
                      (append_part self (mkCodePart tok (cur ++ [c]))))
            as (self' & E & F); [lia|reflexivity|].
          exists self'. split; [exact E|].
          change (cur ++ c :: rest) with (cur ++ [c] ++ [] ++ rest).
          rewrite app_assoc.
          eapply follows_trans; [now apply follows_append|exact F]. }
      destruct (N.eqb c CR) eqn:Hcr; [|apply Hone; lia].
      destruct s as [|d s]; [apply Hone; cbn; lia|].
      destruct (N.eqb d NL) eqn:Hd; [|apply Hone; cbn in *; lia].
      (* CR LF is one boundary *)
      apply N.eqb_eq in Hcr, Hd. subst c d.
      assert (Hfree : char_in NL (cur ++ [CR]) = false).
      { apply char_in_snoc_free; [exact Hcur|reflexivity]. }
      change (cur ++ [CR; NL]) with (cur ++ [CR] ++ [NL]).
      rewrite app_assoc.
      rewrite (string_handler_lines_cons _ _ _ _ _
                 (string_handler_line_nl tok self (cur ++ [CR]) Hfree)).
      destruct (IH s [] (flush (append_part self (mkCodePart tok (cur ++ [CR])))))
        as (self' & E & F); [cbn in Hn; lia|reflexivity|].
      exists self'. split; [exact E|].
      change (cur ++ CR :: NL :: s) with (cur ++ [CR] ++ [NL] ++ [] ++ s).
      rewrite !app_assoc. rewrite <- (app_assoc cur).
      change ([CR] ++ [NL]) with [CR; NL].
      replace ((cur ++ [CR; NL]) ++ []) with ((cur ++ [CR]) ++ [NL])
        by (now rewrite app_nil_r, <- app_assoc).
      eapply follows_trans; [now apply follows_append_flush|exact F].
    + (* an ordinary character extends the segment *)
      destruct (IH s (cur ++ [c]) self) as (self' & E & F); [lia| |].
      { apply char_in_snoc_free; [exact Hcur|now apply is_linebreak_NL]. }
      exists self'. split; [exact E|]. now rewrite <- app_assoc in F.
Qed.

Lemma string_handler_follows self tok x :
  exists self', string_handler self tok x = Ok self' /\ follows self self' x.
Proof.
  unfold string_handler, splitlines_keepends.
  apply (splitlines_scan tok (length x) x [] self); [lia|reflexivity].
Qed.



(** ** One pair, and a stream of pairs *)

Lemma str_eqb_eq a b : str_eqb a b = true <-> a = b.
Proof. unfold str_eqb. apply bool_decide_eq_true. Qed.

Lemma default_handler_total self tok x :
  x <> [] -> exists self', default_handler self tok x = Ok self'.
Proof.
  intros H. destruct (nonempty_snoc x H) as (b & c & ->).
  unfold default_handler. rewrite last_char_app. cbn [mbind result_bind rbind].
  destruct (N.eqb c NL); eauto.
Qed.

Lemma default_handler_follows self tok x :
  x <> [] -> char_in NL (removelast x) = false ->
  exists self', default_handler self tok x = Ok self' /\ follows self self' x.
Proof.
  intros H Hfree. destruct (nonempty_snoc x H) as (b & c & ->).
  rewrite removelast_snoc in Hfree.
  unfold default_handler. rewrite last_char_app. cbn [mbind result_bind rbind].
  destruct (N.eqb c NL) eqn:Hc.
  - apply N.eqb_eq in Hc. subst c. rewrite (rstrip_nl_snoc_nl _ Hfree).
    eexists; split; [reflexivity|]. now apply follows_append_flush.
  - eexists; split; [reflexivity|]. apply follows_append.
    apply char_in_snoc_free; [exact Hfree|now rewrite N.eqb_sym].
Qed.

(** [parse] never raises on a pair. *)
Lemma parse_pair_total self tok_text :
  exists self', parse_pair self tok_text = Ok self'.
Proof.
  destruct tok_text as [tok x]. unfold parse_pair.
  destruct (str_eqb x [NL]); [eauto|].
  destruct (str_eqb x []) eqn:E; [eauto|].
  destruct (token_is_a tok Literal_String && char_in NL x).
  - destruct (string_handler_follows self tok x) as (self' & H & _). eauto.
  - apply default_handler_total. intros ->.
    unfold str_eqb in E. now rewrite bool_decide_eq_false in E.
Qed.

Lemma parse_pair_follows self tok_text :
  newline_only_last tok_text = true ->
  exists self',
    parse_pair self tok_text = Ok self' /\ follows self self' (snd tok_text).
Proof.
  destruct tok_text as [tok x]. unfold newline_only_last, is_multiline_string.
  cbn [fst snd]. intros Hwf. unfold parse_pair.
  destruct (str_eqb x [NL]) eqn:E1.
  { apply str_eqb_eq in E1. subst x.
    eexists; split; [reflexivity|apply follows_newline]. }
  destruct (str_eqb x []) eqn:E2.
  { apply str_eqb_eq in E2. subst x.
    eexists; split; [reflexivity|apply follows_nil]. }
  destruct (token_is_a tok Literal_String && char_in NL x) eqn:E3.
  - apply string_handler_follows.
  - cbn [orb] in Hwf. apply negb_true_iff in Hwf.
    apply default_handler_follows; [|exact Hwf].
    intros ->. unfold str_eqb in E2. now rewrite bool_decide_eq_false in E2.
Qed.

Lemma parse_pairs_app self a b :
  parse_pairs self (a ++ b) =
  self1 ← parse_pairs self a; parse_pairs self1 b.
Proof.
  revert self. induction a as [|x a IH]; intros self; [reflexivity|].
  cbn [app parse_pairs]. destruct (parse_pair self x) as [self1|e]; cbn.
  - apply IH.
  - reflexivity.
Qed.

Lemma parse_pairs_total pairs : forall self,
  exists self', parse_pairs self pairs = Ok self'.
Proof.
  induction pairs as [|x pairs IH]; intros self; [cbn; eauto|].
  cbn [parse_pairs]. destruct (parse_pair_total self x) as (self1 & ->).
  apply IH.
Qed.

Lemma parse_pairs_follows pairs : forall self,
  forallb newline_only_last pairs = true ->
  exists self',
    parse_pairs self pairs = Ok self' /\
    follows self self' (token_texts pairs).
Proof.
  induction pairs as [|x pairs IH]; intros self H.
  - eexists; split; [reflexivity|apply follows_nil].
  - cbn [forallb] in H. apply andb_true_iff in H as [Hx Hrest].
    destruct (parse_pair_follows self x Hx) as (self1 & E1 & F1).
    destruct (IH self1 Hrest) as (self' & E & F).
    exists self'. cbn [parse_pairs]. rewrite E1. split; [exact E|].
    unfold token_texts. cbn [List.map concat].
    eapply follows_trans; eassumption.
Qed.

Lemma parse_source_total s lexer :
  exists lines, parse_source s lexer = Ok lines.
Proof.
  unfold parse_source, parse.
  edestruct parse_pairs_total as (self' & ->). cbn. eauto.
Qed.

(** ** What every parsed line satisfies *)

Lemma parsed_lines_flush self :
  p_parts self <> [] -> parsed_lines self -> parsed_lines (flush self).
Proof.
  intros Hne H. unfold parsed_lines. cbn [flush p_lines p_lexer].
  apply Forall_app. split; [exact H|].
  constructor; [|constructor]. repeat split. exact Hne.
Qed.

Lemma append_part_nonempty self part : p_parts (append_part self part) <> [].
Proof. cbn [append_part p_parts]. now destruct (p_parts self). Qed.

Lemma parsed_lines_newline self tok :
  parsed_lines self -> parsed_lines (newline_handler self tok).
Proof.
  intros H. unfold newline_handler. destruct (p_parts self) eqn:E.
  - apply parsed_lines_flush; [discriminate|exact H].
  - apply parsed_lines_flush; [now rewrite E|exact H].
Qed.

Lemma parsed_lines_string_line tok self seg self' :
  string_handler_line tok self seg = Ok self' ->
  parsed_lines self -> parsed_lines self'.
Proof.
  unfold string_handler_line. destruct (last_char seg) as [c|e]; [|discriminate].
  cbn [mbind result_bind rbind].
  destruct (N.eqb c NL); intros [= <-] H.
  - apply parsed_lines_flush; [apply append_part_nonempty|exact H].
  - exact H.
Qed.

Lemma parsed_lines_string_lines tok segs : forall self self',
  string_handler_lines tok self segs = Ok self' ->
  parsed_lines self -> parsed_lines self'.
Proof.
  induction segs as [|seg segs IH]; intros self self' E H.
  - cbn in E. now injection E as <-.
  - cbn [string_handler_lines] in E.
    destruct (string_handler_line tok self seg) as [self1|e] eqn:E1;
      [|discriminate].
    cbn [mbind result_bind rbind] in E.
    eapply IH; [exact E|]. eapply parsed_lines_string_line; eassumption.
Qed.

Lemma parsed_lines_pair self tok_text self' :
  parse_pair self tok_text = Ok self' ->
  parsed_lines self -> parsed_lines self'.
Proof.
  destruct tok_text as [tok x]. unfold parse_pair.
  destruct (str_eqb x [NL]).
  { intros [= <-]. apply parsed_lines_newline. }
  destruct (str_eqb x []).
  { now intros [= <-]. }
  destruct (token_is_a tok Literal_String && char_in NL x).
  { apply parsed_lines_string_lines. }
  unfold default_handler. destruct (last_char x) as [c|e]; [|discriminate].
  cbn [mbind result_bind rbind].
  destruct (N.eqb c NL); intros [= <-] H.
  - apply parsed_lines_flush; [apply append_part_nonempty|exact H].
  - exact H.
Qed.

Lemma parsed_lines_pairs pairs : forall self self',
  parse_pairs self pairs = Ok self' ->
  parsed_lines self -> parsed_lines self'.
Proof.
  induction pairs as [|x pairs IH]; intros self self' E H.
  - cbn in E. now injection E as <-.
  - cbn [parse_pairs] in E.
    destruct (parse_pair self x) as [self1|e] eqn:E1; [|discriminate].
    cbn [mbind result_bind rbind] in E.
    eapply IH; [exact E|]. eapply parsed_lines_pair; eassumption.
Qed.

Lemma lexer_kept_pairs pairs self self' :
  parse_pairs self pairs = Ok self' -> p_lexer self' = p_lexer self.
Proof.
  revert self. induction pairs as [|x pairs IH]; intros self E.
  - cbn in E. now injection E as <-.
  - cbn [parse_pairs] in E.
    destruct (parse_pair self x) as [self1|e] eqn:E1; [|discriminate].
    cbn [mbind result_bind rbind] in E. rewrite (IH _ E).
    clear E IH. destruct x as [tok x]. unfold parse_pair in E1.
    destruct (str_eqb x [NL]).
    { injection E1 as <-. unfold newline_handler.
      now destruct (p_parts self). }
    destruct (str_eqb x []); [now injection E1 as <-|].
    destruct (token_is_a tok Literal_String && char_in NL x).
    + destruct (string_handler_follows self tok x) as (s2 & E2 & F).
      rewrite E2 in E1. injection E1 as <-. apply F.
    + unfold default_handler in E1.
      destruct (last_char x) as [c|e]; [|discriminate].
      cbn [mbind result_bind rbind] in E1.
      destruct (N.eqb c NL); now injection E1 as <-.
Qed.

Lemma parse_source_parsed_lines s lx lines :
  parse_source s lx = Ok lines -> Forall (parsed_line lx) lines.
Proof.
  unfold parse_source, parse. cbn [Parser_init p_lexer p_lines].
  destruct (parse_pairs _ _) as [self'|e] eqn:E; [|discriminate].
  cbn [mbind result_bind rbind]. intros [= <-].
  pose proof (parsed_lines_pairs _ _ _ E) as H.
  pose proof (lexer_kept_pairs _ _ _ E) as L. cbn [p_lexer] in L.
  unfold parsed_lines in H. rewrite L in H. apply H. constructor.
Qed.

(** ** Logical lines *)

Lemma feed_chars_text : forall s p ls q,
  feed_chars p s = (ls, q) ->
  List.concat (List.map with_newline ls) ++ q = p ++ s.
Proof.
  induction s as [|c s IH]; intros p ls q E.
  - cbn in E. injection E as <- <-. cbn. now rewrite app_nil_r.
  - cbn [feed_chars] in E. destruct (N.eqb c NL) eqn:Hc.
    + apply N.eqb_eq in Hc. subst c.
      destruct (feed_chars [] s) as [ls' q'] eqn:E'.
      injection E as <- <-. cbn [List.map concat].
      unfold with_newline at 1. rewrite <- !app_assoc.
      now rewrite (IH _ _ _ E').
    + rewrite (IH _ _ _ E). now rewrite <- app_assoc.
Qed.

Lemma feed_chars_free_lines : forall s p ls q,
  feed_chars p s = (ls, q) ->
  char_in NL p = false ->
  Forall (fun l => char_in NL l = false) ls /\ char_in NL q = false.
Proof.
  induction s as [|c s IH]; intros p ls q E Hp.
  - cbn in E. injection E as <- <-. split; [constructor|exact Hp].
  - cbn [feed_chars] in E. destruct (N.eqb c NL) eqn:Hc.
    + destruct (feed_chars [] s) as [ls' q'] eqn:E'.
      injection E as <- <-.
      destruct (IH _ _ _ E' eq_refl) as [H1 H2].
      split; [constructor; assumption|exact H2].
    + apply (IH _ _ _ E). apply char_in_snoc_free; [exact Hp|].
      now rewrite N.eqb_sym.
Qed.

Lemma feed_chars_count : forall s p ls q,
  feed_chars p s = (ls, q) ->
  length ls = count_occ N.eq_dec s NL.
Proof.
  induction s as [|c s IH]; intros p ls q E.
  - cbn in E. now injection E as <- <-.
  - cbn [feed_chars] in E. cbn [count_occ].
    destruct (N.eqb c NL) eqn:Hc.
    + apply N.eqb_eq in Hc. subst c.
      destruct (feed_chars [] s) as [ls' q'] eqn:E'.
      injection E as <- <-. destruct (N.eq_dec NL NL); [|congruence].
      cbn [length]. f_equal. eapply IH, E'.
    + apply N.eqb_neq in Hc. destruct (N.eq_dec c NL); [congruence|].
      eapply IH, E.
Qed.

Lemma join_nl_with_newline ls :
  ls <> [] -> join_nl ls ++ [NL] = List.concat (List.map with_newline ls).
Proof.
  induction ls as [|l ls IH]; [congruence|]. intros _.
  destruct ls as [|l' ls].
  - cbn. unfold with_newline. now rewrite app_nil_r.
  - change (join_nl (l :: l' :: ls)) with (l ++ NL :: join_nl (l' :: ls)).
    change (concat (List.map with_newline (l :: l' :: ls)))
      with (with_newline l ++ concat (List.map with_newline (l' :: ls))).
    rewrite <- IH by discriminate.
    unfold with_newline. rewrite <- !app_assoc. reflexivity.
Qed.

Lemma terminated_lines_text s :
  List.concat (List.map with_newline (terminated_lines s)) ++
  unterminated_tail s = s.
Proof.
  unfold terminated_lines, unterminated_tail.
  destruct (feed_chars [] s) as [ls q] eqn:E.
  apply (feed_chars_text _ _ _ _ E).
Qed.

(** A parse from the initial state shows the newline-terminated lines of
    the text its pairs carry. *)
Lemma parse_source_shows s lx :
  forallb newline_only_last (get_tokens lx s) = true ->
  exists lines,
    parse_source s lx = Ok lines /\
    List.map line_text lines = terminated_lines (token_texts (get_tokens lx s)).
Proof.
  intros H. unfold parse_source, parse. cbn [Parser_init p_lexer p_lines].
  destruct (parse_pairs_follows _ {| p_lexer := lx; p_lines := []; p_parts := [] |} H)
    as (self' & E & F & _).
  rewrite E. cbn [mbind result_bind rbind]. eexists; split; [reflexivity|].
  unfold shown, advance in F. cbn [p_lines p_parts List.map fst snd app] in F.
  unfold pending_text in F at 2. cbn [p_parts List.map join_empty concat] in F.
  unfold terminated_lines.
  destruct (feed_chars [] _) as [ls q]. cbn [fst]. now injection F.
Qed.

(* ===================================================================== *)
(** * The parser: round trip *)
(* ===================================================================== *)

(** C1 (amended).  For every source text [s] and every tokenizer whose pairs
    concatenate back to [s] and carry, outside the multi-line string rule, a
    newline at most as their last character: [parse_source] returns Lines
    whose texts are exactly the newline-terminated lines of [s], one Line
    per newline, none holding a newline; and when nothing follows the last
    newline of [s], joining the texts with newlines gives [s] without its
    final newline (both are empty when [s] is empty). *)
Theorem parse_source_roundtrip (s : str) (lx : Lexer) :
  matching lx s ->
  forallb newline_only_last (get_tokens lx s) = true ->
  exists lines,
    parse_source s lx = Ok lines /\
    List.map line_text lines = terminated_lines s /\
    Forall (fun l => char_in NL (line_text l) = false) lines /\
    length lines = count_occ N.eq_dec s NL /\
    (unterminated_tail s = [] ->
     (lines = [] /\ s = []) \/ join_nl (List.map line_text lines) ++ [NL] = s).
Proof.
  intros Hm Hwf. destruct (parse_source_shows s lx Hwf) as (lines & E & T).
  unfold matching in Hm. rewrite Hm in T.
  exists lines. split; [exact E|]. split; [exact T|].
  unfold terminated_lines in T.
  destruct (feed_chars [] s) as [ls q] eqn:F. cbn [fst] in T.
  destruct (feed_chars_free_lines _ _ _ _ F eq_refl) as [Hfree _].
  repeat split.
  - rewrite <- T in Hfree. now apply Forall_map in Hfree.
  - rewrite <- (feed_chars_count _ _ _ _ F), <- T. now rewrite length_map.
  - intros Htail. pose proof (terminated_lines_text s) as Hs.
    rewrite Htail, app_nil_r in Hs. unfold terminated_lines in Hs.
    rewrite F in Hs. cbn [fst] in Hs.
    destruct lines as [|l lines].
    + left. split; [reflexivity|]. cbn in T. subst ls. now cbn in Hs.
    + right. rewrite T. rewrite join_nl_with_newline; [exact Hs|].
      rewrite <- T. discriminate.
Qed.

Lemma parse_source_roundtrip_witness :
  matching line_lexer (py "x = 1" ++ [NL] ++ py "y" ++ [NL]) /\
  exists lines,
    parse_source (py "x = 1" ++ [NL] ++ py "y" ++ [NL]) line_lexer = Ok lines /\
    List.map line_text lines =
      terminated_lines (py "x = 1" ++ [NL] ++ py "y" ++ [NL]) /\
    Forall (fun l => char_in NL (line_text l) = false) lines /\
    length lines =
      count_occ N.eq_dec (py "x = 1" ++ [NL] ++ py "y" ++ [NL]) NL /\
    (unterminated_tail (py "x = 1" ++ [NL] ++ py "y" ++ [NL]) = [] ->
     (lines = [] /\ py "x = 1" ++ [NL] ++ py "y" ++ [NL] = []) \/
     join_nl (List.map line_text lines) ++ [NL] =
       py "x = 1" ++ [NL] ++ py "y" ++ [NL]).
Proof.
  split; [reflexivity|].
  apply (parse_source_roundtrip (py "x = 1" ++ [NL] ++ py "y" ++ [NL]) line_lexer);
    reflexivity.
Defined.

(** C1 as stated fails: the text [a] has a matching tokenizer, and its
    parse is empty, because the fragments after the last newline are never
    flushed. *)
Lemma parse_source_roundtrip_counterexample :
  ~ roundtrip_as_stated (py "a") whole_lexer.
Proof.
  intros H. destruct (H eq_refl) as (lines & E & _ & R).
  vm_compute in E. injection E as <-.
  destruct R as [R|[R|R]]; vm_compute in R; discriminate R.
Qed.

(** This does not depend on the tokenizer: with any matching tokenizer, a
    text without newline parses to no Line at all. *)
Lemma parse_source_without_newline (s : str) (lx : Lexer) :
  matching lx s -> char_in NL s = false -> parse_source s lx = Ok [].
Proof.
  intros Hm Hs.
  assert (W : forallb newline_only_last (get_tokens lx s) = true).
  { unfold matching in Hm. rewrite <- Hm in Hs. clear Hm.
    induction (get_tokens lx s) as [|[tok x] pairs IH]; [reflexivity|].
    unfold token_texts in Hs. cbn [List.map concat snd] in Hs.
    rewrite char_in_app in Hs. apply orb_false_iff in Hs as [Hx Hrest].
    cbn [forallb]. rewrite (IH Hrest), andb_true_r.
    unfold newline_only_last. cbn [snd].
    now rewrite (char_in_removelast _ _ Hx), orb_true_r. }
  destruct (parse_source_shows s lx W) as (lines & E & T).
  unfold matching in Hm. rewrite Hm in T. unfold terminated_lines in T.
  rewrite (feed_chars_free _ _ Hs) in T. cbn [fst] in T.
  destruct lines; [exact E|discriminate T].
Qed.

(** Two more texts with matching tokenizers: a pair ending in two newlines
    loses one, and a pair with an inner newline gives a Line of two source
    lines. *)
Example parse_source_double_newline :
  List.map line_text <$> parse_source (py "a" ++ [NL; NL]) whole_lexer
  = Ok [py "a"].
Proof. reflexivity. Qed.

Example parse_source_inner_newline :
  List.map line_text <$> parse_source (py "a" ++ [NL] ++ py "b" ++ [NL]) whole_lexer
  = Ok [py "a" ++ [NL] ++ py "b"].
Proof. reflexivity. Qed.

(* ===================================================================== *)
(** * The parser: the newline rule and the empty source *)
(* ===================================================================== *)

(** C7.  For every pair whose text is exactly the newline character, in
    every parser state: the accumulated fragments are flushed as one Line
    (a single empty-text fragment of the pair's token type standing in when
    none is accumulated, so a blank source line still gives a Line, with
    empty text), the Line's text is the accumulated text, and the
    accumulator is reset. *)
Theorem newline_rule (self : Parser) (tok : TokenType) :
  parse_pair self (tok, [NL]) =
    Ok {| p_lexer := p_lexer self;
          p_lines := p_lines self ++
                     [CodeLine_new (flushed_fragments self tok) (p_lexer self)];
          p_parts := [] |} /\
  line_text (CodeLine_new (flushed_fragments self tok) (p_lexer self)) =
    pending_text self /\
  parts (CodeLine_new (flushed_fragments self tok) (p_lexer self)) =
    flushed_fragments self tok /\
  flushed_fragments self tok <> [].
Proof.
  unfold parse_pair.
  replace (str_eqb [NL] [NL]) with true by reflexivity.
  unfold newline_handler, flush, pending_text, flushed_fragments.
  destruct (p_parts self) eqn:E; cbn [p_lexer p_lines p_parts];
    rewrite ?E; repeat split; discriminate.
Qed.

(** A blank line between two lines is kept. *)
Example newline_rule_blank_line :
  List.map line_text <$>
    parse_source (py "a" ++ [NL; NL] ++ py "b" ++ [NL]) line_lexer
  = Ok [py "a"; []; py "b"].
Proof. reflexivity. Qed.

Lemma parse_pairs_empty_texts pairs : forall self,
  token_texts pairs = [] -> parse_pairs self pairs = Ok self.
Proof.
  induction pairs as [|[tok x] pairs IH]; intros self H; [reflexivity|].
  unfold token_texts in H. cbn [List.map concat snd] in H.
  apply app_eq_nil in H as [-> H].
  cbn [parse_pairs]. unfold parse_pair.
  replace (str_eqb [] [NL]) with false by reflexivity.
  replace (str_eqb [] []) with true by reflexivity.
  cbn [mbind result_bind rbind]. now apply IH.
Qed.

(** C5 (amended).  With a tokenizer that emits no text for the empty source
    (a matching tokenizer), parsing the empty source gives the empty Line
    sequence, and Append and Insert over it compile, without error, to a
    single step ([AddRows], [InsertRows]) whose line list is empty. *)
Theorem empty_source (lx : Lexer) (box : CodeBox) (pos : Z) :
  matching lx [] ->
  parse_source [] lx = Ok [] /\
  Append_steps box {| source := []; code_lexer := lx |} = Ok [AddRows box []] /\
  Insert_steps box pos {| source := []; code_lexer := lx |} =
    Ok [InsertRows box pos (ManyLines [])].
Proof.
  intros Hm.
  assert (E : parse_source [] lx = Ok []).
  { unfold parse_source, parse. cbn [Parser_init p_lexer p_lines].
    now rewrite (parse_pairs_empty_texts _ _ Hm). }
  unfold Append_steps, Insert_steps. cbn [source code_lexer].
  rewrite E. repeat split.
Qed.

Lemma empty_source_witness :
  matching whole_lexer [] /\
  parse_source [] whole_lexer = Ok [] /\
  Append_steps sample_box {| source := []; code_lexer := whole_lexer |} =
    Ok [AddRows sample_box []] /\
  Insert_steps sample_box 1 {| source := []; code_lexer := whole_lexer |} =
    Ok [InsertRows sample_box 1 (ManyLines [])].
Proof.
  split; [reflexivity|].
  apply (empty_source whole_lexer sample_box 1). reflexivity.
Defined.

(** C5 as stated fails with a tokenizer that ends every text with a
    newline, as the lexers of the registry do: the empty source then parses
    to one blank Line. *)
Lemma empty_source_counterexample :
  parse_source [] line_lexer <> Ok [] /\
  List.map line_text <$> parse_source [] line_lexer = Ok [[]].
Proof. split; [discriminate|reflexivity]. Qed.

(* ===================================================================== *)
(** * The parser: multi-line strings *)
(* ===================================================================== *)







Example multiline_string_form_feed :
  List.map (fun l => List.map text (parts l)) <$>
    parse_source (py "a" ++ [12%N] ++ py "b" ++ [NL])
      {| lexer_class := "PythonLexer";
         get_tokens := fun s => [(Literal_String, s)] |}
  = Ok [[py "a" ++ [12%N]; py "b"]].
Proof. reflexivity. Qed.

(* ===================================================================== *)
(** * Token classification *)
(* ===================================================================== *)

Lemma token_eqb_eq a b : token_eqb a b = true <-> a = b.
Proof. unfold token_eqb. apply bool_decide_eq_true. Qed.

Lemma token_in_In t l : token_in t l = true <-> In t l.
Proof.
  unfold token_in. rewrite existsb_exists. split.
  - intros (x & Hx & E). apply token_eqb_eq in E. now subst.
  - intros H. exists t. split; [exact H|now apply token_eqb_eq].
Qed.

Lemma token_ancestor_loop_chain l : forall n p,
  links p <= n ->
  token_ancestor_loop p l = first_approved l (parent_chain p).
Proof.
  induction n as [|n IH]; intros p Hn.
  - destruct p as [t|]; [cbn in Hn; lia|]. now simp token_ancestor_loop parent_chain.
  - destruct p as [t|]; [|now simp token_ancestor_loop parent_chain].
    simp token_ancestor_loop parent_chain. unfold first_approved.
    cbn [List.find]. destruct (token_in t l); [reflexivity|].
    apply IH. pose proof (parent_links t). lia.
Qed.

Lemma token_is_a_loop_chain token2 : forall n p,
  links p <= n ->
  token_is_a_loop p token2 = existsb (fun a => token_eqb a token2) (parent_chain p).
Proof.
  induction n as [|n IH]; intros p Hn.
  - destruct p as [t|]; [cbn in Hn; lia|]. now simp token_is_a_loop parent_chain.
  - destruct p as [t|]; [|now simp token_is_a_loop parent_chain].
    simp token_is_a_loop parent_chain. cbn [existsb].
    destruct (token_eqb t token2); [reflexivity|].
    apply IH. pose proof (parent_links t). lia.
Qed.

(** [token_is_a] looks for the second token on the chain of the first. *)
Lemma token_is_a_chain t1 t2 :
  token_is_a t1 t2 = existsb (fun a => token_eqb a t2) (t1 :: ancestors t1).
Proof.
  unfold token_is_a. cbn [existsb]. destruct (token_eqb t1 t2); [reflexivity|].
  apply (token_is_a_loop_chain t2 (links (parent t1))). lia.
Qed.

(** The chain from a token is the list of its prefixes, longest first. *)
Lemma parent_chain_prefixes : forall n t,
  length t = n ->
  parent_chain (Some t) =
  List.map (fun k => firstn k t) (rev (seq 0 (S n))).
Proof.
  induction n as [|n IH]; intros t Hn.
  - destruct t; [|discriminate]. now simp parent_chain.
  - destruct t as [|x t0] using rev_ind; [discriminate|]. clear IHt0.
    rewrite length_app in Hn. cbn in Hn.
    assert (Hlen : length t0 = n) by lia.
    simp parent_chain.
    assert (Hp : parent (t0 ++ [x]) = Some t0).
    { unfold parent. destruct (t0 ++ [x]) eqn:E; [destruct t0; discriminate|].
      now rewrite <- E, removelast_snoc. }
    rewrite Hp, (IH t0 Hlen).
    rewrite (seq_S (S n)), rev_app_distr. cbn [rev app List.map Nat.add].
    f_equal.
    + rewrite <- Hlen.
      replace (S (length t0)) with (length (t0 ++ [x]))
        by (rewrite length_app; cbn; lia).
      now rewrite firstn_all.
    + apply List.map_ext_in. intros k Hk. apply in_rev, in_seq in Hk.
      rewrite firstn_app. replace (k - length t0) with 0 by lia.
      cbn [firstn]. now rewrite app_nil_r.
Qed.

(** C8.  For every token type and every approved list, [token_ancestor] is
    a total function (no input makes it raise or loop) that returns the
    token itself when it is approved, otherwise its nearest ancestor on the
    parent chain that is approved, otherwise the root type [Token]. *)
Theorem token_ancestor_spec (t : TokenType) (l : list TokenType) :
  token_ancestor t l = first_approved l (t :: ancestors t) /\
  (In t l -> token_ancestor t l = t) /\
  (~ In t l -> token_ancestor t l = first_approved l (ancestors t)) /\
  ((forall a, In a (t :: ancestors t) -> ~ In a l) ->
   token_ancestor t l = Token) /\
  t :: ancestors t = List.map (fun k => firstn k t) (rev (seq 0 (S (length t)))).
Proof.
  assert (E : token_ancestor t l = first_approved l (t :: ancestors t)).
  { unfold token_ancestor, first_approved at 1. cbn [List.find].
    destruct (token_in t l); [reflexivity|].
    apply (token_ancestor_loop_chain l (links (parent t))). lia. }
  split; [exact E|]. split; [|split; [|split]].
  - intros H. apply token_in_In in H. unfold token_ancestor. now rewrite H.
  - intros H. rewrite E. unfold first_approved. cbn [List.find].
    destruct (token_in t l) eqn:Ht; [|reflexivity].
    apply token_in_In in Ht. contradiction.
  - intros H. rewrite E. unfold first_approved.
    destruct (List.find _ _) as [a|] eqn:F; [|reflexivity].
    apply find_some in F as [Ha Hin]. apply token_in_In in Hin.
    now destruct (H a Ha).
  - rewrite <- (parent_chain_prefixes (length t) t eq_refl).
    unfold ancestors. now simp parent_chain.
Qed.

Lemma token_ancestor_spec_witness :
  token_ancestor ["Literal"; "Number"; "Integer"]%string
    [["Literal"; "Number"]%string; Token_Text] = ["Literal"; "Number"]%string /\
  token_ancestor Generic_Prompt [Generic_Prompt] = Generic_Prompt /\
  token_ancestor Generic_Output [Literal_String] = Token.
Proof.
  split; [reflexivity|]. split.
  - apply (token_ancestor_spec Generic_Prompt [Generic_Prompt]). now left.
  - apply (token_ancestor_spec Generic_Output [Literal_String]).
    intros a Ha [Hl|[]]. subst a. vm_compute in Ha.
    destruct Ha as [Ha|[Ha|[Ha|[]]]]; discriminate Ha.
Defined.

(* ===================================================================== *)
(** * Lexer detection *)
(* ===================================================================== *)

Lemma split_lines_cons s : exists l ls, split_lines s = l :: ls.
Proof.
  destruct s as [|c s]; [cbn; eauto|].
  cbn [split_lines]. destruct (N.eqb c NL); [eauto|].
  destruct (split_lines s); eauto.
Qed.

Lemma first_line_cons c s :
  first_line (c :: s) = if N.eqb c NL then [] else c :: first_line s.
Proof.
  unfold first_line. cbn [split_lines]. destruct (N.eqb c NL); [reflexivity|].
  now destruct (split_lines_cons s) as (l & ls & ->).
Qed.

Lemma first_line_partition s : first_line s = fst (fst (partition s NL)).
Proof.
  induction s as [|c s IH]; [reflexivity|].
  rewrite first_line_cons. cbn [partition].
  destruct (N.eqb c NL); [reflexivity|].
  rewrite IH. now destruct (partition s NL) as [[h m] t].
Qed.

Lemma startswith_first_line : forall s p,
  char_in NL p = false -> startswith (first_line s) p = startswith s p.
Proof.
  induction s as [|c s IH]; intros p Hp; [reflexivity|].
  rewrite first_line_cons. destruct p as [|p0 p]; [now destruct (N.eqb c NL)|].
  apply char_in_cons_false in Hp as [Hp0 Hp].
  destruct (N.eqb c NL) eqn:Hc.
  - apply N.eqb_eq in Hc. subst c. cbn [startswith]. now rewrite Hp0.
  - cbn [startswith]. now rewrite IH.
Qed.

Lemma later_lines_starting p : forall s,
  char_in NL p = false ->
  existsb (fun l => startswith l p) (tl (split_lines s)) = str_in (NL :: p) s.
Proof.
  intros s Hp. induction s as [|c s IH]; [reflexivity|].
  cbn [split_lines str_in startswith]. destruct (N.eqb c NL) eqn:Hc.
  - cbn [tl andb]. destruct (split_lines_cons s) as (l & ls & E).
    rewrite E in *. cbn [existsb tl] in *. rewrite IH. f_equal.
    rewrite <- (startswith_first_line s p Hp). unfold first_line.
    now rewrite E.
  - cbn [andb orb]. destruct (split_lines_cons s) as (l & ls & E).
    rewrite E in *. cbn [tl] in *. exact IH.
Qed.

(** "Starts with, or contains a line starting with": the test of the
    code. *)
Lemma has_line_starting_code p s :
  char_in NL p = false ->
  has_line_starting p s = startswith s p || str_in (NL :: p) s.
Proof.
  intros Hp. unfold has_line_starting.
  rewrite <- (later_lines_starting p s Hp), <- (startswith_first_line s p Hp).
  unfold first_line. now destruct (split_lines_cons s) as (l & ls & ->).
Qed.

Section Detection.

Context (pygments : Pygments).

Lemma get_lexer_con :
  get_lexer (LEXERS pygments) "con" = Ok (PythonConsoleLexer pygments).
Proof. reflexivity. Qed.

Lemma get_lexer_py3 :
  get_lexer (LEXERS pygments) "py3" = Ok (PythonLexer pygments).
Proof. reflexivity. Qed.

Lemma get_lexer_bash :
  get_lexer (LEXERS pygments) "bash" = Ok (BashSessionLexer pygments).
Proof. reflexivity. Qed.

(** C6 (amended).  For every source text, [detect_lexer] applies these
    rules in order, the first matching rule winning: (1) the text starts
    with or contains a line starting with [>>> ]: the console lexer; (2)
    the text starts with a shebang whose line contains [python]: the source
    lexer; (3) a shebang whose line contains [/sh] or [/bash]: the shell
    session lexer; (4) the text has no shebang and starts with or contains a
    line starting with [$ ]: the shell session lexer; (5) otherwise the
    source lexer.  It never raises, and it agrees with the five rules as
    stated whenever the text has no shebang or no line starting with
    [$ ]. *)
Theorem detect_lexer_rules (s : str) :
  detect_lexer (LEXERS pygments) s =
    get_lexer (LEXERS pygments) (detect_amended s) /\
  (detect_amended s = "con"%string \/ detect_amended s = "py3"%string \/
   detect_amended s = "bash"%string) /\
  get_lexer (LEXERS pygments) "con" = Ok (PythonConsoleLexer pygments) /\
  get_lexer (LEXERS pygments) "py3" = Ok (PythonLexer pygments) /\
  get_lexer (LEXERS pygments) "bash" = Ok (BashSessionLexer pygments) /\
  (shebang s && has_line_starting (py "$ ") s = false ->
   detect_amended s = detect_as_stated s).
Proof.
  split; [|split; [|split; [|split; [|split]]]]; try reflexivity.
  - unfold detect_lexer, detect_amended, shebang.
    rewrite !has_line_starting_code by reflexivity.
    rewrite first_line_partition.
    destruct (startswith s (py ">>> ") || str_in (NL :: py ">>> ") s);
      [reflexivity|].
    destruct (startswith s (py "#!")); cbn [andb negb existsb orb].
    + destruct (str_in (py "python") _); [reflexivity|].
      rewrite orb_false_r. now destruct (_ || _).
    + now destruct (_ || _).
  - unfold detect_amended.
    repeat match goal with
           | |- context [if ?b then _ else _] => destruct b
           end; auto.
  - intros H. unfold detect_amended, detect_as_stated.
    destruct (shebang s); cbn [andb negb] in *; [|reflexivity].
    now rewrite H.
Qed.

End Detection.

Lemma detect_lexer_rules_witness :
  detect_lexer (LEXERS sample_pygments) (py "$ ls -l" ++ [NL] ++ py "total 0") =
    Ok (BashSessionLexer sample_pygments) /\
  detect_amended (py "$ ls -l" ++ [NL] ++ py "total 0") =
    detect_as_stated (py "$ ls -l" ++ [NL] ++ py "total 0").
Proof.
  split.
  - destruct (detect_lexer_rules sample_pygments
                (py "$ ls -l" ++ [NL] ++ py "total 0")) as (E & _).
    rewrite E. reflexivity.
  - apply (detect_lexer_rules sample_pygments
             (py "$ ls -l" ++ [NL] ++ py "total 0")).
    reflexivity.
Defined.

(** C6 as stated fails: a text with a shebang that names neither python nor
    a shell never reaches the [$ ] rule, and gets the source lexer. *)
Lemma detect_lexer_rules_counterexample :
  detect_as_stated (py "#!/bin/zsh" ++ [NL] ++ py "$ ls") = "bash"%string /\
  detect_lexer (LEXERS sample_pygments) (py "#!/bin/zsh" ++ [NL] ++ py "$ ls") =
    Ok (PythonLexer sample_pygments) /\
  detect_lexer (LEXERS sample_pygments) (py "#!/bin/zsh" ++ [NL] ++ py "$ ls") <>
    get_lexer (LEXERS sample_pygments)
      (detect_as_stated (py "#!/bin/zsh" ++ [NL] ++ py "$ ls")).
Proof.
  split; [reflexivity|]. split; [reflexivity|].
  intros H. apply (f_equal (fun r => match r with
                                     | Ok lx => lexer_class lx
                                     | Raise _ => ""%string
                                     end)) in H.
  vm_compute in H. discriminate H.
Qed.

(* ===================================================================== *)
(** * The text invariant of a [CodeLine] *)
(* ===================================================================== *)

Lemma mutations_other r r' fs : forall σ : gmap positive (list CodePart),
  r' <> r -> Store.mutations r fs σ !! r' = σ !! r'.
Proof.
  induction fs as [|f fs IH]; intros σ Hne; [reflexivity|].
  change (Store.mutations r (f :: fs) σ)
    with (Store.mutations r fs (Store.mutate r f σ)).
  rewrite (IH _ Hne). unfold Store.mutate. now apply lookup_alter_ne.
Qed.

Lemma copy_fresh r (σ : gmap positive (list CodePart)) items :
  σ !! r = Some items ->
  exists own,
    Store.copy r σ = Some (own, <[own := items]> σ) /\
    own <> r /\ σ !! own = None.
Proof.
  intros H. unfold Store.copy. rewrite H.
  exists (fresh (dom σ)). split; [reflexivity|].
  pose proof (is_fresh (dom σ)) as Hf.
  split.
  - intros E. apply Hf. rewrite E. apply elem_of_dom. eauto.
  - now apply not_elem_of_dom.
Qed.

(** The value-level constructor is the store-level one read back. *)
Lemma CodeLine_init_text items lx n hl :
  line_text (CodeLine_init items lx n hl) = join_empty (List.map text items) /\
  parts (CodeLine_init items lx n hl) = items.
Proof. split; reflexivity. Qed.

(** C9.  For every fragments list [items] held by the caller at [r]:
    [CodeLine.__init__] succeeds; the new line holds its own list, different
    from the caller's, with the same items; its [text] is the concatenation
    of its fragments' texts at construction; and after any sequence of
    in-place mutations of the caller's list the line still holds the
    original fragments and the invariant still holds. *)
Theorem CodeLine_text_invariant (σ : gmap positive (list CodePart))
  (r : Store.loc) (items : list CodePart) (lx : Lexer) (n : Z) (hl : bool)
  (fs : list (list CodePart -> list CodePart)) :
  σ !! r = Some items ->
  exists line σ1,
    Store.CodeLine_init r lx n hl σ = Some (line, σ1) /\
    Store.o_parts line <> r /\
    σ1 !! r = Some items /\
    Store.text_invariant σ1 line /\
    Store.read σ1 line = Some (CodeLine_init items lx n hl) /\
    Store.text_invariant (Store.mutations r fs σ1) line /\
    Store.read (Store.mutations r fs σ1) line =
      Some (CodeLine_init items lx n hl).
Proof.
  intros H. destruct (copy_fresh r σ items H) as (own & Ec & Hne & Hnone).
  assert (Hr : <[own := items]> σ !! r = Some items).
  { rewrite lookup_insert_ne by exact Hne. exact H. }
  assert (Hown : <[own := items]> σ !! own = Some items)
    by apply lookup_insert_eq.
  eexists. exists (<[own := items]> σ).
  split; [unfold Store.CodeLine_init; now rewrite Ec, Hr|].
  cbn [Store.o_parts]. split; [exact Hne|]. split; [exact Hr|].
  unfold Store.text_invariant, Store.read.
  cbn [Store.o_parts Store.o_text Store.o_line_number Store.o_highlight
       Store.o_lexer].
  rewrite (mutations_other r own fs _ Hne), Hown.
  repeat split; try reflexivity; exists items; split; reflexivity.
Qed.

Lemma CodeLine_text_invariant_witness :
  exists line σ1,
    Store.CodeLine_init 1%positive whole_lexer (-1) false
      {[ 1%positive := [mkCodePart Token_Text (py "x")] ]} = Some (line, σ1) /\
    Store.o_parts line <> 1%positive /\
    σ1 !! 1%positive = Some [mkCodePart Token_Text (py "x")] /\
    Store.text_invariant σ1 line /\
    Store.read σ1 line =
      Some (CodeLine_init [mkCodePart Token_Text (py "x")] whole_lexer (-1) false) /\
    Store.text_invariant
      (Store.mutations 1%positive
         [Store.list_append (mkCodePart Token_Text (py "y"));
          Store.list_setitem 0 (mkCodePart Token (py "z"));
          Store.list_clear] σ1) line /\
    Store.read
      (Store.mutations 1%positive
         [Store.list_append (mkCodePart Token_Text (py "y"));
          Store.list_setitem 0 (mkCodePart Token (py "z"));
          Store.list_clear] σ1) line =
      Some (CodeLine_init [mkCodePart Token_Text (py "x")] whole_lexer (-1) false).
Proof.
  apply (CodeLine_text_invariant
           {[ 1%positive := [mkCodePart Token_Text (py "x")] ]} 1%positive
           [mkCodePart Token_Text (py "x")] whole_lexer (-1) false).
  reflexivity.
Defined.

(** Without the copy the line would follow the caller's list: here the
    caller's list is read after a mutation. *)
Example caller_list_changes :
  Store.mutations 1%positive [Store.list_clear]
    ({[ 1%positive := [mkCodePart Token_Text (py "x")] ]}
       : gmap positive (list CodePart)) !! 1%positive = Some [].
Proof. reflexivity. Qed.

(* ===================================================================== *)
(** * The typewriter compiler *)
(* ===================================================================== *)

Ltac rand_simpl :=
  cbn [mbind mret Rand_bind Rand_ret rand_bind rand_ret lift
       result_bind rbind].

(** The range of the draw is never empty: the delay is always drawn. *)
Lemma delay_until_next_letter_ok (box : CodeBox) (g : RandomSource) :
  exists d g', delay_until_next_letter box g = Ok (d, g').
Proof.
  unfold delay_until_next_letter, randint. rand_simpl.
  destruct (Z.ltb_spec (2 * Z.of_N (delay_variance (settings (screen box)))) 0);
    [lia|]. eauto.
Qed.

Lemma rand_bind_ok {A B} (m : Rand A) (k : A -> Rand B) g a g1 :
  m g = Ok (a, g1) -> (m ≫= k) g = k a g1.
Proof. intros H. unfold mbind, Rand_bind, rand_bind. now rewrite H. Qed.

Lemma rand_bind_raise {A B} (m : Rand A) (k : A -> Rand B) g e :
  m g = Raise e -> (m ≫= k) g = Raise e.
Proof. intros H. unfold mbind, Rand_bind, rand_bind. now rewrite H. Qed.

Lemma rand_bind_lift {A B} (a : A) (k : A -> Rand B) g :
  (lift (Ok a) ≫= k) g = k a g.
Proof. reflexivity. Qed.

Lemma rand_ret_ok {A} (a : A) g : (mret a : Rand A) g = Ok (a, g).
Proof. reflexivity. Qed.

Lemma set_last_snoc {A} (cp : list A) (x y : A) :
  set_last (cp ++ [x]) y = Ok (cp ++ [y]).
Proof.
  unfold set_last. destruct (cp ++ [x]) eqn:E; [destruct cp; discriminate|].
  now rewrite <- E, removelast_snoc.
Qed.

Section Typewriter.

Context (pygments : Pygments) (self : TypewriterStep) (pos : Z).

Lemma letters_loop_spec count num part : forall letters typed cp last steps g,
  exists ds g',
    length ds = length letters /\
    letters_loop self pos count num part letters typed (cp ++ [last]) steps g =
    Ok ((cp ++ [match letters with
                | [] => last
                | _ :: _ => mkCodePart (token part) (typed ++ letters)
                end],
         steps ++ reveal_steps (code_box self) pos (code_lexer (code self)) cp
                    (token part) (Nat.eqb (count + 1) num)
                    (length (text part)) typed letters ds), g').
Proof.
  induction letters as [|c letters IH]; intros typed cp last steps g.
  - exists [], g. split; [reflexivity|]. cbn. now rewrite app_nil_r.
  - cbn [letters_loop]. rewrite set_last_snoc, rand_bind_lift.
    destruct (delay_until_next_letter_ok (code_box self) g)
      as (d & g1 & Ed).
    rewrite (rand_bind_ok _ _ _ _ _ Ed).
    match goal with
    | |- context [letters_loop _ _ _ _ _ _ _ _ ?st g1] =>
        destruct (IH (typed ++ [c]) cp (mkCodePart (token part) (typed ++ [c]))
                    st g1) as (ds & g' & Hlen & E)
    end.
    exists (d :: ds), g'. split; [cbn; lia|].
    rewrite E. f_equal. f_equal. f_equal.
    + f_equal. destruct letters; [reflexivity|]. now rewrite <- app_assoc.
    + cbn [reveal_steps]. rewrite <- !app_assoc. reflexivity.
Qed.

Lemma reveal_rows tok txt : forall letters typed ds,
  txt = typed ++ letters ->
  length ds = length letters ->
  reveal_steps (code_box self) pos (code_lexer (code self)) [] tok true
    (length txt) typed letters ds =
  flat_map (typed_pair (code_box self) pos (code_lexer (code self)) tok txt)
    (combine (seq (S (length typed)) (length letters)) ds).
Proof.
  induction letters as [|c letters IH]; intros typed ds Htxt Hlen;
    [reflexivity|].
  destruct ds as [|d ds]; [discriminate|].
  cbn [reveal_steps length seq combine flat_map typed_pair app fst snd].
  assert (Hl : length (typed ++ [c]) = S (length typed))
    by (rewrite length_app; cbn; lia).
  f_equal; [|f_equal].
  - f_equal. f_equal. unfold typed_row. f_equal.
    assert (Hf : firstn (S (length typed)) txt = typed ++ [c]).
    { rewrite Htxt, firstn_app.
      replace (S (length typed) - length typed) with 1 by lia.
      rewrite firstn_all2 by lia. reflexivity. }
    rewrite Hf, Hl. cbn [andb].
    assert (Hn : length txt = length typed + S (length letters))
      by (rewrite Htxt, length_app; reflexivity).
    destruct letters as [|c' letters].
    + replace (S (length typed) =? length txt) with true
        by (symmetry; apply Nat.eqb_eq; cbn in Hn; lia).
      replace (S (length typed) <? length txt) with false
        by (symmetry; apply Nat.ltb_ge; cbn in Hn; lia).
      reflexivity.
    + replace (S (length typed) =? length txt) with false
        by (symmetry; apply Nat.eqb_neq; cbn in Hn; lia).
      replace (S (length typed) <? length txt) with true
        by (symmetry; apply Nat.ltb_lt; cbn in Hn; lia).
      reflexivity.
  - rewrite <- Hl. apply IH; [|cbn in Hlen; lia].
    now rewrite <- app_assoc.
Qed.

(** The text of a typed row ends with the cursor glyph until the last
    character is typed. *)
Lemma typed_row_text lx tok txt i :
  line_text (typed_row lx tok txt i) =
  firstn i txt ++ if Nat.ltb i (length txt) then [9608%N] else [].
Proof.
  unfold typed_row, CodeLine_new, CodeLine_init, join_empty. cbn [line_text].
  destruct (Nat.ltb i (length txt)); cbn; now rewrite ?app_nil_r.
Qed.

Lemma typed_pairs_count box tok txt (l : list (nat * Q)) :
  length (List.filter is_ReplaceRows
            (flat_map (typed_pair box pos (code_lexer (code self)) tok txt) l))
    = length l /\
  length (List.filter is_Sleep
            (flat_map (typed_pair box pos (code_lexer (code self)) tok txt) l))
    = length l /\
  List.filter is_CellEnd
    (flat_map (typed_pair box pos (code_lexer (code self)) tok txt) l) = [].
Proof.
  induction l as [|x l (IH1 & IH2 & IH3)]; [repeat split|].
  cbn [flat_map typed_pair app List.filter is_ReplaceRows is_Sleep is_CellEnd length].
  rewrite IH1, IH2, IH3. repeat split.
Qed.

(** C3.  For every line with a first fragment, compiled for a code whose
    lexer the registry knows as a console lexer: when the first fragment's
    token type is not a prompt type (neither [Generic.Prompt] nor a
    descendant of it), the line compiles, for every position and without
    drawing a delay, to exactly one step, [InsertRows] with the whole line;
    there is no [ReplaceRows], [Sleep] or [CellEnd] step.  The lines [steps]
    compiles are those parsed from the code, and the code's lexer is the
    lexer that owns them. *)
Theorem console_output_line (line : CodeLine) (p : CodePart)
  (ps : list CodePart) (g : RandomSource) :
  parts line = p :: ps ->
  is_lexer_console (LEXERS pygments) (code_lexer (code self)) = Ok true ->
  token_is_a (token p) Generic_Prompt = false ->
  _line_to_steps pygments self line pos g =
    Ok ([InsertRows (code_box self) pos (OneLine line)], g) /\
  List.filter (fun s => is_ReplaceRows s || is_Sleep s || is_CellEnd s)
    [InsertRows (code_box self) pos (OneLine line)] = [] /\
  (forall lines l,
     parse_source (source (code self)) (code_lexer (code self)) = Ok lines ->
     In l lines -> lexer l = code_lexer (code self) /\ parts l <> []).
Proof.
  intros Hp Hc Ht. split; [|split; [reflexivity|]].
  - unfold _line_to_steps. rewrite Hp. cbn [first_item].
    rewrite rand_bind_lift, Hc, rand_bind_lift, Ht. reflexivity.
  - intros lines l E Hin.
    pose proof (parse_source_parsed_lines _ _ _ E) as H.
    rewrite List.Forall_forall in H. destruct (H l Hin) as (H1 & H2 & _).
    now split.
Qed.

(** C2.  For every line that consists of one fragment [(tok, txt)] whose
    token type is not a continuous one, compiled for a code whose lexer the
    registry knows as not a console lexer, at every position and with every
    random source: the compilation succeeds and gives the
    [InsertRows] of the blank row, then for [i = 1 .. N] (with [N] the length
    of [txt]) one [ReplaceRows] immediately followed by one [Sleep]; the row
    of the [i]-th [ReplaceRows] holds the first [i] characters of [txt],
    followed by the cursor fragment exactly when [i < N].  So there are
    exactly [N] [ReplaceRows] and [N] [Sleep] steps, and no [CellEnd]. *)
Theorem typewriter_single_fragment (line : CodeLine) (tok : TokenType)
  (txt : str) (g : RandomSource) :
  parts line = [mkCodePart tok txt] ->
  is_lexer_console (LEXERS pygments) (code_lexer (code self)) = Ok false ->
  token_in tok continuous = false ->
  exists ds g' steps,
    length ds = length txt /\
    _line_to_steps pygments self line pos g = Ok (steps, g') /\
    steps =
      InsertRows (code_box self) pos
        (OneLine (CodeLine_new [mkCodePart Token []] (code_lexer (code self)))) ::
      flat_map (typed_pair (code_box self) pos (code_lexer (code self)) tok txt)
        (combine (seq 1 (length txt)) ds) /\
    length (List.filter is_ReplaceRows steps) = length txt /\
    length (List.filter is_Sleep steps) = length txt /\
    List.filter is_CellEnd steps = [].
Proof.
  intros Hp Hc Ht.
  destruct (letters_loop_spec 0 1 (mkCodePart tok txt) txt [] []
              (mkCodePart tok [])
              [InsertRows (code_box self) pos
                 (OneLine (CodeLine_new [mkCodePart Token []]
                             (code_lexer (code self))))] g)
    as (ds & g' & Hlen & E).
  exists ds, g'. eexists. split; [exact Hlen|]. split.
  - unfold _line_to_steps. rewrite Hp. cbn [first_item].
    rewrite rand_bind_lift, Hc, rand_bind_lift. cbn [andb].
    cbn [length parts_loop token text]. rewrite Ht.
    cbn [app] in E |- *.
    rewrite (rand_bind_ok _ _ _ _ _
               (rand_bind_ok _ _ _ _ _ E)).
    rewrite !rand_ret_ok. reflexivity.
  - cbn [token text Nat.add Nat.eqb app].
    rewrite (reveal_rows tok txt txt [] ds eq_refl Hlen). cbn [length].
    split; [reflexivity|].
    cbn [List.filter is_ReplaceRows is_Sleep is_CellEnd].
    destruct (typed_pairs_count (code_box self) tok txt
                (combine (seq 1 (length txt)) ds)) as (C1 & C2 & C3).
    rewrite C1, C2, C3, length_combine, length_seq, Hlen.
    repeat split; lia.
Qed.

End Typewriter.

(** ** Positions *)

Section Positions.

Context (pygments : Pygments) (self : TypewriterStep).

Lemma at_position_snoc pos steps s :
  Forall (at_position pos) steps -> at_position pos s ->
  Forall (at_position pos) (steps ++ [s]).
Proof. intros H1 H2. apply Forall_app. split; [exact H1|now constructor]. Qed.

Lemma at_position_same pos s :
  step_position s = Some pos \/ step_position s = None -> at_position pos s.
Proof. intros [H|H] p Hp; congruence. Qed.

Lemma letters_loop_positions pos count num part :
  forall letters typed cp steps g cp' steps' g',
  letters_loop self pos count num part letters typed cp steps g =
    Ok ((cp', steps'), g') ->
  Forall (at_position pos) steps -> Forall (at_position pos) steps'.
Proof.
  induction letters as [|c letters IH]; intros typed cp steps g cp' steps' g' E H.
  - cbn in E. now injection E as <- <- <-.
  - cbn [letters_loop] in E.
    destruct (set_last cp _) as [cp1|e]; [|discriminate E].
    rewrite rand_bind_lift in E.
    destruct (delay_until_next_letter (code_box self) g) as [[d g1]|e] eqn:Ed.
    + rewrite (rand_bind_ok _ _ _ _ _ Ed) in E.
      eapply IH; [exact E|].
      apply at_position_snoc; [apply at_position_snoc; [exact H|]|];
        apply at_position_same; [now left|now right].
    + rewrite (rand_bind_raise _ _ _ _ Ed) in E. discriminate E.
Qed.

Lemma parts_loop_positions pos num :
  forall ps count cp steps g cp' steps' g',
  parts_loop self pos num count ps cp steps g = Ok ((cp', steps'), g') ->
  Forall (at_position pos) steps -> Forall (at_position pos) steps'.
Proof.
  induction ps as [|part ps IH]; intros count cp steps g cp' steps' g' E H.
  - cbn in E. now injection E as <- <- <-.
  - cbn [parts_loop] in E. destruct (token_in (token part) continuous).
    + eapply IH; [exact E|].
      destruct (token_eqb (token part) Generic_Prompt).
      * apply at_position_snoc; [apply at_position_snoc; [exact H|]|];
          apply at_position_same; [now left|now right].
      * apply at_position_snoc; [exact H|].
        apply at_position_same. now left.
    + destruct (letters_loop self pos count num part (text part) []
                  (cp ++ [mkCodePart (token part) []]) steps g)
        as [[[cp1 steps1] g1]|e] eqn:El.
      * rewrite (rand_bind_ok _ _ _ _ _ El) in E.
        eapply IH; [exact E|].
        eapply letters_loop_positions; eassumption.
      * rewrite (rand_bind_raise _ _ _ _ El) in E. discriminate E.
Qed.

(** The loops only append steps. *)
Lemma letters_loop_extends pos count num part :
  forall letters typed cp st g cp' st' g',
  letters_loop self pos count num part letters typed cp st g =
    Ok ((cp', st'), g') ->
  exists more, st' = st ++ more.
Proof.
  induction letters as [|c letters IH]; intros typed cp st g cp' st' g' E.
  - cbn in E. injection E as <- <- <-. exists []. now rewrite app_nil_r.
  - cbn [letters_loop] in E.
    destruct (set_last cp _) as [cp1|e]; [|discriminate E].
    rewrite rand_bind_lift in E.
    destruct (delay_until_next_letter (code_box self) g) as [[d g1]|e] eqn:Ed.
    + rewrite (rand_bind_ok _ _ _ _ _ Ed) in E.
      apply IH in E as (more & ->). rewrite <- !app_assoc. eauto.
    + rewrite (rand_bind_raise _ _ _ _ Ed) in E. discriminate E.
Qed.

Lemma parts_loop_extends pos num :
  forall ps count cp st g cp' st' g',
  parts_loop self pos num count ps cp st g = Ok ((cp', st'), g') ->
  exists more, st' = st ++ more.
Proof.
  induction ps as [|part ps IH]; intros count cp st g cp' st' g' E.
  - cbn in E. injection E as <- <- <-. exists []. now rewrite app_nil_r.
  - cbn [parts_loop] in E. destruct (token_in (token part) continuous).
    + apply IH in E as (more & ->).
      destruct (token_eqb (token part) Generic_Prompt);
        rewrite <- ?app_assoc; eauto.
    + destruct (letters_loop self pos count num part (text part) []
                  (cp ++ [mkCodePart (token part) []]) st g)
        as [[[cp1 st1] g1]|e] eqn:El.
      * rewrite (rand_bind_ok _ _ _ _ _ El) in E.
        apply IH in E as (more & ->).
        apply letters_loop_extends in El as (more1 & ->).
        rewrite <- app_assoc. eauto.
      * rewrite (rand_bind_raise _ _ _ _ El) in E. discriminate E.
Qed.

(** Every step a line compiles to carries the line's position, and the
    first step inserts the row. *)
Lemma line_to_steps_positions line pos g steps g' :
  _line_to_steps pygments self line pos g = Ok (steps, g') ->
  Forall (at_position pos) steps /\
  exists content rest, steps = InsertRows (code_box self) pos content :: rest.
Proof.
  unfold _line_to_steps. intros E.
  destruct (first_item (parts line)) as [p|e]; [|discriminate E].
  rewrite rand_bind_lift in E.
  destruct (is_lexer_console _ _) as [c|e]; [|discriminate E].
  rewrite rand_bind_lift in E.
  destruct (c && negb (token_is_a (token p) Generic_Prompt)).
  - injection E as <- <-. split; [|eauto].
    constructor; [|constructor]. apply at_position_same. now left.
  - match type of E with
    | (parts_loop ?s ?p ?n ?c ?l ?cp ?st ≫= _) _ = _ =>
        destruct (parts_loop s p n c l cp st g) as [[[cp1 steps1] g1]|e] eqn:Ep
    end.
    + rewrite (rand_bind_ok _ _ _ _ _ Ep) in E. injection E as <- <-.
      split.
      * eapply parts_loop_positions; [exact Ep|].
        constructor; [|constructor]. apply at_position_same. now left.
      * apply parts_loop_extends in Ep as (more & ->). cbn [app]. eauto.
    + rewrite (rand_bind_raise _ _ _ _ Ep) in E. discriminate E.
Qed.

(** The loop of [steps] compiles the lines one after the other, the line
    at index [i] of the loop at position [position + count + i]. *)
Lemma lines_loop_compile : forall lines count steps g,
  lines_loop pygments self count lines steps g =
  match compile_each pygments self
          (combine lines
             (List.map (fun i => (position self + Z.of_nat i)%Z)
                (seq count (length lines)))) g with
  | Ok (ss, g') => Ok (steps ++ ss, g')
  | Raise e => Raise e
  end.
Proof.
  induction lines as [|line lines IH]; intros count steps g.
  - cbn. now rewrite app_nil_r.
  - cbn [lines_loop length seq List.map combine compile_each].
    destruct (_line_to_steps pygments self line
                (position self + Z.of_nat count) g) as [[a g1]|e] eqn:E.
    + rewrite !(rand_bind_ok _ _ _ _ _ E), IH.
      destruct (compile_each pygments self _ g1) as [[b g2]|e] eqn:Eb.
      * rewrite (rand_bind_ok _ _ _ _ _ Eb), rand_ret_ok.
        now rewrite app_assoc.
      * now rewrite (rand_bind_raise _ _ _ _ Eb).
    + now rewrite !(rand_bind_raise _ _ _ _ E).
Qed.

End Positions.

Lemma positions_from_one n :
  List.map (fun i => (1 + Z.of_nat i)%Z) (seq 0 n) = List.map Z.of_nat (seq 1 n).
Proof.
  rewrite <- seq_shift, List.map_map. apply List.map_ext. intros i. lia.
Qed.

(** C10.  [AppendTypewriter] sets its position to 1 whatever the display
    surface holds: for every surface (with any rows), code and random
    source, the source parses to some lines, and [steps] compiles the
    [i]-th of them (counting from 1) with target position [i], one line
    after the other; every step of that line carrying a position carries
    [i], the first being the [InsertRows] of the row.  [Append] instead
    compiles the same lines to one [AddRows] step, which has no position. *)
Theorem AppendTypewriter_positions (pygments : Pygments) (box : CodeBox)
  (cd : Code) (g : RandomSource) :
  position (AppendTypewriter box cd) = 1%Z /\
  exists lines,
    parse_source (source cd) (code_lexer cd) = Ok lines /\
    TypewriterStep_steps pygments (AppendTypewriter box cd) g =
      compile_each pygments (AppendTypewriter box cd)
        (combine lines (List.map Z.of_nat (seq 1 (length lines)))) g /\
    Append_steps box cd = Ok [AddRows box lines] /\
    step_position (AddRows box lines) = None /\
    (forall i line g1 ss g2,
       nth_error lines i = Some line ->
       _line_to_steps pygments (AppendTypewriter box cd) line
         (Z.of_nat (S i)) g1 = Ok (ss, g2) ->
       Forall (at_position (Z.of_nat (S i))) ss /\
       exists content rest,
         ss = InsertRows box (Z.of_nat (S i)) content :: rest).
Proof.
  split; [reflexivity|].
  destruct (parse_source_total (source cd) (code_lexer cd)) as (lines & E).
  exists lines. split; [exact E|]. split; [|split; [|split]].
  - unfold TypewriterStep_steps. cbn [AppendTypewriter code source code_lexer].
    rewrite E, rand_bind_lift, lines_loop_compile.
    cbn [position]. rewrite positions_from_one.
    destruct (compile_each _ _ _ g) as [[ss g']|e]; reflexivity.
  - unfold Append_steps. now rewrite E.
  - reflexivity.
  - intros i line g1 ss g2 _ H.
    apply (line_to_steps_positions pygments _ _ _ _ _ _ H).
Qed.

(* ===================================================================== *)
(** * Sample runs of the typewriter compiler *)
(* ===================================================================== *)

Lemma console_output_line_witness :
  _line_to_steps sample_pygments (AppendTypewriter sample_box console_code)
    (CodeLine_new [mkCodePart Generic_Output (py "hello")]
       (PythonConsoleLexer sample_pygments)) 1 sample_random =
  Ok ([InsertRows sample_box 1
         (OneLine (CodeLine_new [mkCodePart Generic_Output (py "hello")]
                     (PythonConsoleLexer sample_pygments)))],
      sample_random).
Proof.
  apply (console_output_line sample_pygments
           (AppendTypewriter sample_box console_code) 1
           (CodeLine_new [mkCodePart Generic_Output (py "hello")]
              (PythonConsoleLexer sample_pygments))
           (mkCodePart Generic_Output (py "hello")) [] sample_random);
    reflexivity.
Defined.

Lemma typewriter_single_fragment_witness :
  exists ds g' steps,
    length ds = length (py "ab") /\
    _line_to_steps sample_pygments (AppendTypewriter sample_box python_code)
      (CodeLine_new [mkCodePart Token_Text (py "ab")]
         (PythonLexer sample_pygments)) 1 sample_random = Ok (steps, g') /\
    steps =
      InsertRows sample_box 1
        (OneLine (CodeLine_new [mkCodePart Token []]
                    (PythonLexer sample_pygments))) ::
      flat_map (typed_pair sample_box 1 (PythonLexer sample_pygments)
                  Token_Text (py "ab"))
        (combine (seq 1 (length (py "ab"))) ds) /\
    length (List.filter is_ReplaceRows steps) = length (py "ab") /\
    length (List.filter is_Sleep steps) = length (py "ab") /\
    List.filter is_CellEnd steps = [].
Proof.
  apply (typewriter_single_fragment sample_pygments
           (AppendTypewriter sample_box python_code) 1
           (CodeLine_new [mkCodePart Token_Text (py "ab")]
              (PythonLexer sample_pygments))
           Token_Text (py "ab") sample_random);
    reflexivity.
Defined.

Lemma AppendTypewriter_positions_witness :
  exists ss g2,
    _line_to_steps sample_pygments (AppendTypewriter sample_box python_code)
      (CodeLine_new [mkCodePart Token_Text (py "c")]
         (PythonLexer sample_pygments)) 2 sample_random = Ok (ss, g2) /\
    Forall (at_position 2) ss.
Proof.
  destruct (_line_to_steps sample_pygments
              (AppendTypewriter sample_box python_code)
              (CodeLine_new [mkCodePart Token_Text (py "c")]
                 (PythonLexer sample_pygments)) 2 sample_random)
    as [[ss g2]|e] eqn:H.
  - exists ss, g2. split; [reflexivity|].
    destruct (AppendTypewriter_positions sample_pygments sample_box python_code
                sample_random) as (_ & lines & E & _ & _ & _ & P).
    assert (Hl : nth_error lines 1 =
                 Some (CodeLine_new [mkCodePart Token_Text (py "c")]
                         (PythonLexer sample_pygments))).
    { vm_compute in E. injection E as <-. reflexivity. }
    apply (P 1 _ sample_random ss g2 Hl H).
  - vm_compute in H. discriminate H.
Defined.

(** The steps of the second line of a two-line source, typed at row 2. *)
Example AppendTypewriter_second_line :
  List.map step_position <$>
    (fst <$> TypewriterStep_steps sample_pygments
               (AppendTypewriter sample_box python_code) sample_random)
  = Ok [Some 1; Some 1; None; Some 1; None; Some 2; Some 2; None]%Z.
Proof. reflexivity. Qed.

(* ===================================================================== *)
(** * Further properties: the token hierarchy *)
(* ===================================================================== *)

Lemma chain_from_token t : parent_chain (Some t) = t :: ancestors t.
Proof. unfold ancestors. now simp parent_chain. Qed.

Lemma in_parent_chain t a :
  In a (parent_chain (Some t)) <-> exists suffix, t = a ++ suffix.
Proof.
  pose proof (parent_chain_prefixes (length t) t eq_refl) as E.
  unfold TokenType in *. rewrite E, in_map_iff. clear E. split.
  - intros (k & <- & _). exists (skipn k t). now rewrite firstn_skipn.
  - intros (suffix & ->). exists (length a). split.
    + rewrite firstn_app, Nat.sub_diag, firstn_all. cbn. now rewrite app_nil_r.
    + rewrite <- in_rev. apply in_seq. rewrite length_app. lia.
Qed.

Lemma token_is_a_iff_prefix t1 t2 :
  token_is_a t1 t2 = true <-> exists suffix, t1 = t2 ++ suffix.
Proof.
  rewrite token_is_a_chain, <- chain_from_token, existsb_exists.
  rewrite <- in_parent_chain. split.
  - intros (a & Ha & E). apply token_eqb_eq in E. now subst.
  - intros H. exists t2. split; [exact H|now apply token_eqb_eq].
Qed.

Lemma token_ancestor_chain t l :
  token_ancestor t l = first_approved l (parent_chain (Some t)).
Proof.
  rewrite chain_from_token. unfold token_ancestor, first_approved at 1.
  cbn [List.find]. destruct (token_in t l); [reflexivity|].
  apply (token_ancestor_loop_chain l (links (parent t))). lia.
Qed.

(** X1.  [token_is_a token1 token2] holds exactly when [token2] is
    [token1] or one of its ancestors, that is when the path of [token2] is a
    prefix of the path of [token1]. *)
Theorem token_is_a_prefix (token1 token2 : TokenType) :
  token_is_a token1 token2 = true <-> exists suffix, token1 = token2 ++ suffix.
Proof. apply token_is_a_iff_prefix. Qed.

(** X2.  [token_is_a] is a partial order on token types with the root
    [Token] on top: it is reflexive, transitive and antisymmetric, and every
    token type is a [Token]. *)
Theorem token_is_a_order (a b c : TokenType) :
  token_is_a a a = true /\
  (token_is_a a b = true -> token_is_a b c = true -> token_is_a a c = true) /\
  (token_is_a a b = true -> token_is_a b a = true -> a = b) /\
  token_is_a a Token = true.
Proof.
  rewrite !token_is_a_iff_prefix. repeat split.
  - exists []. now rewrite app_nil_r.
  - intros (s1 & ->) (s2 & ->). exists (s2 ++ s1). now rewrite app_assoc.
  - intros (s1 & E1) (s2 & E2). rewrite E2, <- app_assoc in E1.
    rewrite <- (app_nil_r a) in E1 at 1. apply app_inv_head in E1.
    symmetry in E1. apply app_eq_nil in E1 as [-> _].
    now rewrite app_nil_r in E2.
  - exists a. reflexivity.
Qed.

Lemma token_is_a_order_witness :
  token_is_a ["Literal"; "String"; "Doc"]%string Token = true /\
  (token_is_a ["Literal"; "String"; "Doc"]%string Literal_String = true ->
   token_is_a Literal_String ["Literal"]%string = true ->
   token_is_a ["Literal"; "String"; "Doc"]%string ["Literal"]%string = true).
Proof.
  split.
  - apply (token_is_a_order ["Literal"; "String"; "Doc"]%string Token Token).
  - apply (token_is_a_order ["Literal"; "String"; "Doc"]%string
             Literal_String ["Literal"]%string).
Defined.

(** X3.  What [token_ancestor] returns is always a type the token is: the
    token [token_is_a] its result, for every approved list; and the result
    is in the approved list unless it is the fallback [Token]. *)
Theorem token_ancestor_is_a (token : TokenType) (ancestor_list : list TokenType) :
  token_is_a token (token_ancestor token ancestor_list) = true /\
  (In (token_ancestor token ancestor_list) ancestor_list \/
   token_ancestor token ancestor_list = Token).
Proof.
  rewrite token_ancestor_chain. unfold first_approved.
  destruct (List.find _ _) as [a|] eqn:F.
  - apply find_some in F as [Hin Ha]. split.
    + apply token_is_a_iff_prefix. now apply in_parent_chain.
    + left. now apply token_in_In.
  - split; [|now right]. apply token_is_a_iff_prefix. now exists token.
Qed.

(* ===================================================================== *)
(** * Further properties: the parser *)
(* ===================================================================== *)

(** X4.  [parse_source] never raises, whatever the lexer emits: no pair
    makes [text[-1]] or [line[-1]] fail.  Every Line it returns has at least
    one fragment, belongs to the lexer given, has line number -1 and no
    highlight, and has as text the concatenation of its fragments' texts. *)
Theorem parse_source_sound (source : str) (lx : Lexer) :
  exists lines,
    parse_source source lx = Ok lines /\ Forall (parsed_line lx) lines.
Proof.
  destruct (parse_source_total source lx) as (lines & E).
  exists lines. split; [exact E|]. now apply parse_source_parsed_lines in E.
Qed.

(** X5.  Pairs with an empty text are skipped: parsing a stream of pairs
    and parsing it without its empty pairs give the same parser state. *)
Theorem empty_pairs_skipped (self : Parser) (pairs : list (TokenType * str)) :
  parse_pairs self (List.filter has_text pairs) = parse_pairs self pairs.
Proof.
  revert self. induction pairs as [|[tok x] pairs IH]; intros self;
    [reflexivity|].
  cbn [List.filter]. unfold has_text at 1. cbn [snd].
  destruct (str_eqb x []) eqn:E; cbn [negb].
  - apply str_eqb_eq in E. subst x. rewrite IH.
    cbn [parse_pairs]. unfold parse_pair.
    replace (str_eqb [] [NL]) with false by reflexivity.
    replace (str_eqb [] []) with true by reflexivity.
    reflexivity.
  - cbn [parse_pairs]. destruct (parse_pair self (tok, x)) as [self1|e];
      cbn [mbind result_bind rbind]; [apply IH|reflexivity].
Qed.

(** ** No character is lost *)

Lemma held_text_append self part :
  held_text (append_part self part) = held_text self ++ text part.
Proof.
  unfold held_text. rewrite pending_text_append. cbn [append_part p_lines].
  now rewrite app_assoc.
Qed.

Lemma held_text_flush self : held_text (flush self) = held_text self ++ [NL].
Proof.
  unfold held_text. cbn [flush p_lines p_parts].
  rewrite !List.map_app, concat_app. cbn [List.map concat].
  unfold pending_text at 1. cbn [p_parts List.map join_empty concat].
  unfold with_newline at 2. cbn [CodeLine_new CodeLine_init line_text].
  fold (pending_text self). now rewrite !app_nil_r, <- !app_assoc.
Qed.

Lemma follows_held a b x : follows a b x -> held_text b = held_text a ++ x.
Proof.
  intros (Sh & _). unfold shown, advance in Sh. cbn [fst snd] in Sh.
  destruct (feed_chars (pending_text a) x) as [ls q] eqn:F.
  injection Sh as E1 E2. unfold held_text. rewrite E1, E2.
  rewrite List.map_app, concat_app, <- !app_assoc. f_equal.
  apply (feed_chars_text _ _ _ _ F).
Qed.

Lemma rstrip_nl_snoc s : rstrip_nl (s ++ [NL]) = rstrip_nl s.
Proof.
  induction s as [|c s IH]; [reflexivity|].
  cbn [app rstrip_nl]. now rewrite IH.
Qed.

Lemma rstrip_nl_last b c : c <> NL -> rstrip_nl (b ++ [c]) = b ++ [c].
Proof.
  intros Hc. induction b as [|x b IH].
  - cbn. apply N.eqb_neq in Hc. now rewrite Hc.
  - cbn [app rstrip_nl]. rewrite IH. now destruct (b ++ [c]) eqn:E;
      [destruct b; discriminate|].
Qed.

Lemma single_newline_stripped b :
  ends_double_newline (b ++ [NL]) = false -> rstrip_nl (b ++ [NL]) = b.
Proof.
  intros H. rewrite rstrip_nl_snoc.
  destruct b as [|c b _] using rev_ind; [reflexivity|].
  unfold ends_double_newline in H. rewrite !rev_app_distr in H.
  cbn [rev app] in H. replace (N.eqb NL NL) with true in H by reflexivity.
  cbn [andb] in H. apply N.eqb_neq in H. now apply rstrip_nl_last.
Qed.

Lemma default_handler_held self tok x :
  x <> [] -> ends_double_newline x = false ->
  exists self',
    default_handler self tok x = Ok self' /\
    held_text self' = held_text self ++ x.
Proof.
  intros Hne Hd. destruct (nonempty_snoc x Hne) as (b & c & ->).
  unfold default_handler. rewrite last_char_app. cbn [mbind result_bind rbind].
  destruct (N.eqb c NL) eqn:Hc.
  - apply N.eqb_eq in Hc. subst c. rewrite (single_newline_stripped _ Hd).
    eexists; split; [reflexivity|].
    rewrite held_text_flush, held_text_append. cbn [text].
    now rewrite <- app_assoc.
  - eexists; split; [reflexivity|]. now rewrite held_text_append.
Qed.

Lemma parse_pair_held self tok_text :
  no_double_newline tok_text = true ->
  exists self',
    parse_pair self tok_text = Ok self' /\
    held_text self' = held_text self ++ snd tok_text.
Proof.
  destruct tok_text as [tok x]. unfold no_double_newline, is_multiline_string.
  cbn [fst snd]. intros Hwf. unfold parse_pair.
  destruct (str_eqb x [NL]) eqn:E1.
  { apply str_eqb_eq in E1. subst x. eexists; split; [reflexivity|].
    apply follows_held, follows_newline. }
  destruct (str_eqb x []) eqn:E2.
  { apply str_eqb_eq in E2. subst x. eexists; split; [reflexivity|].
    now rewrite app_nil_r. }
  destruct (token_is_a tok Literal_String && char_in NL x) eqn:E3.
  - destruct (string_handler_follows self tok x) as (self' & E & F).
    exists self'. split; [exact E|now apply follows_held].
  - cbn [orb] in Hwf. apply negb_true_iff in Hwf.
    apply default_handler_held; [|exact Hwf].
    intros ->. unfold str_eqb in E2. now rewrite bool_decide_eq_false in E2.
Qed.

(** X6.  No character is lost up to the pending text: when no pair outside
    the multi-line string rule ends with two newlines, the loop of [parse]
    ends in a state whose Lines, each followed by a newline, and pending
    fragments concatenate to the text held before followed by the texts of
    the pairs.  (Inner newlines of a pair are kept inside its Line.) *)
Theorem parse_keeps_text (self : Parser) (pairs : list (TokenType * str)) :
  forallb no_double_newline pairs = true ->
  exists self',
    parse_pairs self pairs = Ok self' /\
    held_text self' = held_text self ++ token_texts pairs.
Proof.
  revert self. induction pairs as [|x pairs IH]; intros self H.
  - eexists; split; [reflexivity|]. unfold token_texts. cbn.
    now rewrite app_nil_r.
  - cbn [forallb] in H. apply andb_true_iff in H as [Hx Hrest].
    destruct (parse_pair_held self x Hx) as (self1 & E1 & H1).
    destruct (IH self1 Hrest) as (self' & E & H').
    exists self'. cbn [parse_pairs]. rewrite E1. split; [exact E|].
    rewrite H', H1. unfold token_texts. cbn [List.map concat].
    now rewrite app_assoc.
Qed.

Lemma parse_keeps_text_witness :
  exists self',
    parse_pairs (Parser_init whole_lexer)
      [(Token_Text, py "a" ++ [NL] ++ py "b" ++ [NL]); (Token_Text, py "c")]
      = Ok self' /\
    held_text self' =
      held_text (Parser_init whole_lexer) ++
      token_texts
        [(Token_Text, py "a" ++ [NL] ++ py "b" ++ [NL]); (Token_Text, py "c")].
Proof.
  apply (parse_keeps_text (Parser_init whole_lexer)
           [(Token_Text, py "a" ++ [NL] ++ py "b" ++ [NL]);
            (Token_Text, py "c")]).
  reflexivity.
Defined.

(** ** Text after the last newline *)

Lemma newline_free_pair_appends self tok x :
  char_in NL x = false ->
  parse_pair self (tok, x) =
  Ok (if str_eqb x [] then self else append_part self (mkCodePart tok x)).
Proof.
  intros Hx. unfold parse_pair.
  replace (str_eqb x [NL]) with false.
  2:{ symmetry. unfold str_eqb. apply bool_decide_eq_false. intros ->.
      discriminate Hx. }
  destruct (str_eqb x []) eqn:E; [reflexivity|].
  rewrite Hx, andb_false_r.
  assert (Hne : x <> []).
  { intros ->. unfold str_eqb in E. now rewrite bool_decide_eq_false in E. }
  destruct (nonempty_snoc x Hne) as (b & c & ->).
  unfold default_handler. rewrite last_char_app. cbn [mbind result_bind rbind].
  rewrite char_in_app in Hx. apply orb_false_iff in Hx as [_ Hc].
  apply char_in_cons_false in Hc as [Hc _]. now rewrite N.eqb_sym, Hc.
Qed.

Lemma newline_free_pairs_keep_lines tail : forall self,
  forallb newline_free_pair tail = true ->
  exists self',
    parse_pairs self tail = Ok self' /\ p_lines self' = p_lines self.
Proof.
  induction tail as [|[tok x] tail IH]; intros self H; [cbn; eauto|].
  cbn [forallb] in H. apply andb_true_iff in H as [Hx Hrest].
  unfold newline_free_pair in Hx. cbn [snd] in Hx. apply negb_true_iff in Hx.
  cbn [parse_pairs]. rewrite (newline_free_pair_appends _ _ _ Hx).
  cbn [mbind result_bind rbind].
  destruct (IH (if str_eqb x [] then self
                else append_part self (mkCodePart tok x)) Hrest)
    as (self' & E & L).
  exists self'. split; [exact E|]. rewrite L. now destruct (str_eqb x []).
Qed.

(** X7.  Fragments after the last newline never reach a Line: pairs
    without newline at the end of the stream only accumulate, so the Lines
    are those of the stream without them; [parse] has no flush at the end
    of the input. *)
Theorem trailing_fragments_dropped (self : Parser)
  (pairs tail : list (TokenType * str)) :
  forallb newline_free_pair tail = true ->
  p_lines <$> parse_pairs self (pairs ++ tail) =
  p_lines <$> parse_pairs self pairs.
Proof.
  intros H. rewrite parse_pairs_app.
  destruct (parse_pairs self pairs) as [self1|e]; [|reflexivity].
  cbn [mbind result_bind rbind].
  destruct (newline_free_pairs_keep_lines tail self1 H) as (self' & E & L).
  rewrite E. cbn. now rewrite L.
Qed.

Lemma trailing_fragments_dropped_witness :
  p_lines <$> parse_pairs (Parser_init whole_lexer)
                ([(Token_Text, py "a"); (Token_Text, [NL])] ++
                 [(Token_Text, py "b"); (Literal_String, py "'c'")]) =
  p_lines <$> parse_pairs (Parser_init whole_lexer)
                [(Token_Text, py "a"); (Token_Text, [NL])].
Proof.
  apply (trailing_fragments_dropped (Parser_init whole_lexer)
           [(Token_Text, py "a"); (Token_Text, [NL])]
           [(Token_Text, py "b"); (Literal_String, py "'c'")]).
  reflexivity.
Defined.

(** ** Parsing with a parser that already has lines *)

Lemma flush_before L self :
  flush (with_lines_before L self) = with_lines_before L (flush self).
Proof.
  unfold flush, with_lines_before. cbn [p_lexer p_lines p_parts].
  now rewrite app_assoc.
Qed.

Lemma append_part_before L self part :
  append_part (with_lines_before L self) part =
  with_lines_before L (append_part self part).
Proof. reflexivity. Qed.

Lemma newline_handler_before L self tok :
  newline_handler (with_lines_before L self) tok =
  with_lines_before L (newline_handler self tok).
Proof.
  unfold newline_handler. cbn [with_lines_before p_parts].
  destruct (p_parts self) eqn:E.
  - unfold flush, with_lines_before. cbn [p_lexer p_lines p_parts].
    now rewrite app_assoc.
  - apply flush_before.
Qed.

Lemma string_handler_lines_before L tok segs : forall self,
  string_handler_lines tok (with_lines_before L self) segs =
  with_lines_before L <$> string_handler_lines tok self segs.
Proof.
  induction segs as [|seg segs IH]; intros self; [reflexivity|].
  cbn [string_handler_lines]. unfold string_handler_line.
  destruct (last_char seg) as [c|e]; [|reflexivity].
  cbn [mbind result_bind rbind]. rewrite append_part_before.
  destruct (N.eqb c NL); cbn [rbind]; rewrite ?flush_before; apply IH.
Qed.

Lemma parse_pair_before L self tok_text :
  parse_pair (with_lines_before L self) tok_text =
  with_lines_before L <$> parse_pair self tok_text.
Proof.
  destruct tok_text as [tok x]. unfold parse_pair.
  destruct (str_eqb x [NL]); [now rewrite newline_handler_before|].
  destruct (str_eqb x []); [reflexivity|].
  destruct (token_is_a tok Literal_String && char_in NL x).
  - apply string_handler_lines_before.
  - unfold default_handler. destruct (last_char x) as [c|e]; [|reflexivity].
    cbn [mbind result_bind rbind]. rewrite !append_part_before.
    destruct (N.eqb c NL); [now rewrite flush_before|reflexivity].
Qed.

Lemma parse_pairs_before L pairs : forall self,
  parse_pairs (with_lines_before L self) pairs =
  with_lines_before L <$> parse_pairs self pairs.
Proof.
  induction pairs as [|x pairs IH]; intros self; [reflexivity|].
  cbn [parse_pairs]. rewrite parse_pair_before.
  destruct (parse_pair self x) as [self1|e]; [|reflexivity].
  cbn. apply IH.
Qed.

(** X8.  [parse] on a parser that already has Lines keeps them and appends
    exactly the Lines [parse_source] returns for the content with the
    parser's lexer; the fragments left pending by an earlier call are
    discarded. *)
Theorem parse_appends (self : Parser) (content : str) :
  exists lines,
    parse_source content (p_lexer self) = Ok lines /\
    p_lines <$> parse self content = Ok (p_lines self ++ lines).
Proof.
  destruct (parse_source_total content (p_lexer self)) as (lines & E).
  exists lines. split; [exact E|].
  unfold parse_source, parse in E. unfold parse.
  cbn [Parser_init p_lexer p_lines] in E.
  replace {| p_lexer := p_lexer self; p_lines := p_lines self; p_parts := [] |}
    with (with_lines_before (p_lines self)
            {| p_lexer := p_lexer self; p_lines := []; p_parts := [] |})
    by (unfold with_lines_before; cbn; now rewrite app_nil_r).
  rewrite parse_pairs_before.
  destruct (parse_pairs _ _) as [self'|e]; [|discriminate E].
  cbn in E |- *. now injection E as <-.
Qed.

(* ===================================================================== *)
(** * Further properties: the lexer registry *)
(* ===================================================================== *)

Section Registry.

Context (pygments : Pygments).

Lemma get_lexer_cases (name : string) :
  get_lexer (LEXERS pygments) name =
  if decide (name = "bash"%string) then Ok (BashSessionLexer pygments)
  else if decide (name = "py3"%string) then Ok (PythonLexer pygments)
  else if decide (name = "con"%string) then Ok (PythonConsoleLexer pygments)
  else Raise KeyError.
Proof.
  unfold get_lexer, LEXERS, LexerContainer_init, dict_of.
  cbn [_lexers fold_left h_name].
  rewrite !lookup_insert, lookup_empty.
  repeat case_decide; subst; try reflexivity; congruence.
Qed.

Lemma is_lexer_console_cases (lx : Lexer) :
  is_lexer_console (LEXERS pygments) lx =
  if decide (lexer_class lx = "BashSessionLexer"%string) then Ok true
  else if decide (lexer_class lx = "PythonLexer"%string) then Ok false
  else if decide (lexer_class lx = "PythonConsoleLexer"%string) then Ok true
  else Raise KeyError.
Proof.
  unfold is_lexer_console, LEXERS, LexerContainer_init, dict_of.
  cbn [_reverse_lookup fold_left h_lexer lexer_class BashSessionLexer
       PythonLexer PythonConsoleLexer].
  rewrite !lookup_insert, lookup_empty.
  repeat case_decide; subst; try reflexivity; congruence.
Qed.

(** X9.  [get_lexer] raises [KeyError] exactly for the names other than
    [con], [py3] and [bash]; and every lexer it returns is known to
    [is_lexer_console], which answers true for [con] and [bash] and false
    for [py3]. *)
Theorem get_lexer_registered (name : string) :
  (get_lexer (LEXERS pygments) name = Raise KeyError <->
   name <> "con"%string /\ name <> "py3"%string /\ name <> "bash"%string) /\
  (forall lx,
     get_lexer (LEXERS pygments) name = Ok lx ->
     is_lexer_console (LEXERS pygments) lx =
       Ok (negb (String.eqb name "py3"))).
Proof.
  rewrite get_lexer_cases. split.
  - repeat case_decide; subst; split; intros Hx; try discriminate Hx;
      try (destruct Hx as (Hx1 & Hx2 & Hx3); congruence);
      try reflexivity; repeat split; assumption.
  - intros lx. repeat case_decide; subst; intros [= <-]; reflexivity.
Qed.

(** X10.  [is_lexer_console] raises [KeyError] exactly for a lexer whose
    class is none of the three classes of the registry; the answer depends
    on the class of the lexer only. *)
Theorem is_lexer_console_unregistered (lx : Lexer) :
  (is_lexer_console (LEXERS pygments) lx = Raise KeyError <->
   registered_class (lexer_class lx) = false) /\
  (forall lx', lexer_class lx' = lexer_class lx ->
     is_lexer_console (LEXERS pygments) lx' =
     is_lexer_console (LEXERS pygments) lx).
Proof.
  split.
  - rewrite is_lexer_console_cases. unfold registered_class.
    rewrite !orb_false_iff, !String.eqb_neq.
    repeat case_decide; split; intros Hx; try discriminate Hx;
      try (destruct Hx as ((Hx1 & Hx2) & Hx3); congruence);
      try reflexivity; repeat split; assumption.
  - intros lx' E. rewrite !is_lexer_console_cases, E. reflexivity.
Qed.

(** X11.  [detect_lexer] never raises and always returns one of the three
    lexers of the registry, so [is_lexer_console] never raises on what it
    returns. *)
Theorem detect_lexer_registered (source : str) :
  exists lx b,
    detect_lexer (LEXERS pygments) source = Ok lx /\
    is_lexer_console (LEXERS pygments) lx = Ok b /\
    (lx = PythonConsoleLexer pygments \/ lx = PythonLexer pygments \/
     lx = BashSessionLexer pygments).
Proof.
  unfold detect_lexer.
  repeat match goal with
         | |- context [if ?c then _ else _] => destruct c
         end;
    eexists; eexists; (split; [reflexivity|split; [reflexivity|auto]]).
Qed.

End Registry.

Lemma get_lexer_registered_witness :
  get_lexer (LEXERS sample_pygments) "perl" = Raise KeyError /\
  is_lexer_console (LEXERS sample_pygments) (BashSessionLexer sample_pygments) =
    Ok (negb (String.eqb "bash" "py3")).
Proof.
  split.
  - apply (get_lexer_registered sample_pygments "perl"). repeat split; discriminate.
  - apply (get_lexer_registered sample_pygments "bash").
    reflexivity.
Defined.

Lemma is_lexer_console_unregistered_witness :
  is_lexer_console (LEXERS sample_pygments) whole_lexer = Raise KeyError /\
  is_lexer_console (LEXERS sample_pygments) line_lexer =
  is_lexer_console (LEXERS sample_pygments) (PythonLexer sample_pygments).
Proof.
  split.
  - apply (is_lexer_console_unregistered sample_pygments whole_lexer). reflexivity.
  - apply (is_lexer_console_unregistered sample_pygments
             (PythonLexer sample_pygments)).
    reflexivity.
Defined.

(* ===================================================================== *)
(** * Further properties: the typewriter *)
(* ===================================================================== *)

Lemma randint_range a b g :
  (a <= b)%Z ->
  exists r,
    randint a b g = Ok (r, {| draws := draws g; drawn := S (drawn g) |}) /\
    (a <= r <= b)%Z.
Proof.
  intros H. unfold randint. destruct (Z.ltb_spec b a); [lia|].
  eexists; split; [reflexivity|].
  pose proof (Z.mod_pos_bound (draws g (drawn g)) (b - a + 1)). lia.
Qed.



(** ** The animation of a line *)

Lemma part_eta (part : CodePart) : mkCodePart (token part) (text part) = part.
Proof. now destruct part. Qed.

Lemma parts_loop_animation (self : TypewriterStep) (pos : Z) (num : nat) :
  forall ps count cp steps g,
  exists ds g',
    length ds = typed_letters ps /\
    parts_loop self pos num count ps cp steps g =
    Ok ((cp ++ ps,
         steps ++ animation (code_box self) pos (code_lexer (code self))
                    num count cp ps ds), g').
Proof.
  induction ps as [|part ps IH]; intros count cp steps g.
  - exists [], g. split; [reflexivity|]. cbn. now rewrite !app_nil_r.
  - cbn [parts_loop animation typed_letters].
    destruct (token_in (token part) continuous).
    + match goal with
      | |- context [parts_loop _ _ _ _ _ ?cp1 ?st g] =>
          destruct (IH (S count) cp1 st g) as (ds & g' & Hlen & E)
      end.
      exists ds, g'. split; [exact Hlen|]. rewrite E.
      rewrite <- !app_assoc. cbn [app].
      destruct (token_eqb (token part) Generic_Prompt);
        rewrite <- ?app_assoc; reflexivity.
    + destruct (letters_loop_spec self pos count num part (text part) [] cp
                  (mkCodePart (token part) []) steps g)
        as (ds1 & g1 & Hlen1 & E1).
      rewrite (rand_bind_ok _ _ _ _ _ E1).
      assert (Hp : match text part with
                   | [] => mkCodePart (token part) []
                   | _ :: _ => mkCodePart (token part) ([] ++ text part)
                   end = part).
      { destruct part as [tok [|c txt]]; reflexivity. }
      rewrite Hp.
      match goal with
      | |- context [parts_loop _ _ _ _ _ ?cp1 ?st g1] =>
          destruct (IH (S count) cp1 st g1) as (ds2 & g' & Hlen2 & E2)
      end.
      exists (ds1 ++ ds2), g'. split; [rewrite length_app; lia|].
      rewrite E2. rewrite <- Hlen1, firstn_app, Nat.sub_diag, firstn_all.
      rewrite skipn_app, Nat.sub_diag, skipn_all. cbn [firstn skipn app].
      rewrite app_nil_r, <- !app_assoc. reflexivity.
Qed.

Section Animation.

Context (pygments : Pygments) (self : TypewriterStep) (pos : Z).

Lemma line_to_steps_animated (line : CodeLine) (g : RandomSource)
  (p : CodePart) (ps : list CodePart) (c : bool) :
  parts line = p :: ps ->
  is_lexer_console (LEXERS pygments) (code_lexer (code self)) = Ok c ->
  c && negb (token_is_a (token p) Generic_Prompt) = false ->
  exists ds g',
    length ds = typed_letters (parts line) /\
    _line_to_steps pygments self line pos g =
    Ok (InsertRows (code_box self) pos
          (OneLine (CodeLine_new [mkCodePart Token []] (code_lexer (code self)))) ::
        animation (code_box self) pos (code_lexer (code self))
          (length (parts line)) 0 [] (parts line) ds, g').
Proof.
  intros Hp Hc Ha.
  destruct (parts_loop_animation self pos (length (parts line)) (parts line) 0 []
              [InsertRows (code_box self) pos
                 (OneLine (CodeLine_new [mkCodePart Token []]
                             (code_lexer (code self))))] g)
    as (ds & g' & Hlen & E).
  exists ds, g'. split; [exact Hlen|].
  unfold _line_to_steps. rewrite Hp at 1. cbn [first_item].
  rewrite rand_bind_lift, Hc, rand_bind_lift, Ha.
  rewrite (rand_bind_ok _ _ _ _ _ E), rand_ret_ok. reflexivity.
Qed.

Lemma line_to_steps_ok (line : CodeLine) (g : RandomSource) (c : bool) :
  parts line <> [] ->
  is_lexer_console (LEXERS pygments) (code_lexer (code self)) = Ok c ->
  exists steps g', _line_to_steps pygments self line pos g = Ok (steps, g').
Proof.
  intros Hne Hc. destruct (parts line) as [|p ps] eqn:Hp; [congruence|].
  destruct (c && negb (token_is_a (token p) Generic_Prompt)) eqn:Ha.
  - unfold _line_to_steps. rewrite Hp. cbn [first_item].
    rewrite rand_bind_lift, Hc, rand_bind_lift, Ha. eauto.
  - destruct (line_to_steps_animated line g p ps c Hp Hc Ha)
      as (ds & g' & _ & E). eauto.
Qed.

(** X13.  The errors of [_line_to_steps]: a line without fragments raises
    [IndexError], whatever the lexer; a line with fragments raises
    [KeyError] when the class of the code's lexer is not in the registry;
    in every other case the line compiles. *)
Theorem line_to_steps_errors (line : CodeLine) (g : RandomSource) :
  (parts line = [] ->
   _line_to_steps pygments self line pos g = Raise IndexError) /\
  (parts line <> [] ->
   registered_class (lexer_class (code_lexer (code self))) = false ->
   _line_to_steps pygments self line pos g = Raise KeyError) /\
  (parts line <> [] ->
   registered_class (lexer_class (code_lexer (code self))) = true ->
   exists steps g', _line_to_steps pygments self line pos g = Ok (steps, g')).
Proof.
  split; [|split].
  - intros Hp. unfold _line_to_steps. now rewrite Hp.
  - intros Hne Hr. unfold _line_to_steps.
    destruct (parts line) as [|p ps]; [congruence|]. cbn [first_item].
    rewrite rand_bind_lift, is_lexer_console_cases.
    unfold registered_class in Hr.
    rewrite !orb_false_iff, !String.eqb_neq in Hr.
    destruct Hr as ((H1 & H2) & H3).
    repeat case_decide; try congruence. reflexivity.
  - intros Hne Hr.
    assert (Hc : exists c, is_lexer_console (LEXERS pygments)
                             (code_lexer (code self)) = Ok c).
    { rewrite is_lexer_console_cases. unfold registered_class in Hr.
      rewrite !orb_true_iff, !String.eqb_eq in Hr.
      repeat case_decide; eauto. destruct Hr as [[Hr|Hr]|Hr]; congruence. }
    destruct Hc as (c & Hc). now apply (line_to_steps_ok line g c).
Qed.

End Animation.

Lemma line_to_steps_errors_witness :
  _line_to_steps sample_pygments (AppendTypewriter sample_box python_code)
    (CodeLine_new [] (PythonLexer sample_pygments)) 1 sample_random =
    Raise IndexError /\
  _line_to_steps sample_pygments
    (AppendTypewriter sample_box {| source := py "x"; code_lexer := whole_lexer |})
    (CodeLine_new [mkCodePart Token_Text (py "x")] whole_lexer) 1 sample_random =
    Raise KeyError /\
  exists steps g',
    _line_to_steps sample_pygments (AppendTypewriter sample_box python_code)
      (CodeLine_new [mkCodePart Token_Text (py "x")]
         (PythonLexer sample_pygments)) 1 sample_random = Ok (steps, g').
Proof.
  split; [|split].
  - apply (line_to_steps_errors sample_pygments
             (AppendTypewriter sample_box python_code) 1). reflexivity.
  - apply (line_to_steps_errors sample_pygments
             (AppendTypewriter sample_box
                {| source := py "x"; code_lexer := whole_lexer |}) 1);
      [discriminate|reflexivity].
  - apply (line_to_steps_errors sample_pygments
             (AppendTypewriter sample_box python_code) 1);
      [discriminate|reflexivity].
Defined.

(** ** Counting the steps of an animation *)

Lemma count_steps_app f a b :
  count_steps f (a ++ b) = count_steps f a + count_steps f b.
Proof. unfold count_steps. now rewrite List.filter_app, length_app. Qed.

Lemma reveal_counts box pos lx cp tok last_part full :
  forall letters typed ds,
  length ds = length letters ->
  count_steps is_ReplaceRows
    (reveal_steps box pos lx cp tok last_part full typed letters ds)
    = length letters /\
  count_steps is_Sleep
    (reveal_steps box pos lx cp tok last_part full typed letters ds)
    = length letters /\
  count_steps is_CellEnd
    (reveal_steps box pos lx cp tok last_part full typed letters ds) = 0.
Proof.
  induction letters as [|c letters IH]; intros typed ds Hlen;
    [repeat split|].
  destruct ds as [|d ds]; [discriminate|]. cbn in Hlen.
  destruct (IH (typed ++ [c]) ds) as (H1 & H2 & H3); [lia|].
  unfold count_steps in *.
  cbn [reveal_steps List.filter is_ReplaceRows is_Sleep is_CellEnd length].
  rewrite H1, H2, H3. repeat split.
Qed.

Lemma not_continuous_not_prompt t :
  token_in t continuous = false -> token_eqb t Generic_Prompt = false.
Proof.
  unfold token_in, continuous. cbn [existsb]. intros H.
  now apply orb_false_iff in H.
Qed.

Lemma animation_counts box pos lx num : forall ps count cp ds,
  length ds = typed_letters ps ->
  count_steps is_ReplaceRows (animation box pos lx num count cp ps ds)
    = continuous_parts ps + typed_letters ps /\
  count_steps is_Sleep (animation box pos lx num count cp ps ds)
    = typed_letters ps /\
  count_steps is_CellEnd (animation box pos lx num count cp ps ds)
    = prompt_parts ps.
Proof.
  induction ps as [|part ps IH]; intros count cp ds Hlen; [repeat split|].
  cbn [animation typed_letters] in *.
  unfold continuous_parts, prompt_parts in *. cbn [List.filter].
  destruct (token_in (token part) continuous) eqn:Hc.
  - destruct (IH (S count) (cp ++ [part]) ds) as (H1 & H2 & H3); [lia|].
    change (ReplaceRows box pos (OneLine (CodeLine_new (cp ++ [part]) lx)) ::
            ?a ++ ?b)
      with ([ReplaceRows box pos (OneLine (CodeLine_new (cp ++ [part]) lx))] ++
            a ++ b).
    rewrite !count_steps_app, H1, H2, H3.
    destruct (token_eqb (token part) Generic_Prompt); cbn; repeat split; lia.
  - rewrite (not_continuous_not_prompt _ Hc).
    destruct (IH (S count) (cp ++ [part]) (skipn (length (text part)) ds))
      as (H1 & H2 & H3); [rewrite length_skipn; lia|].
    destruct (reveal_counts box pos lx cp (token part)
                (Nat.eqb (count + 1) num) (length (text part)) (text part) []
                (firstn (length (text part)) ds))
      as (R1 & R2 & R3); [rewrite length_firstn; lia|].
    rewrite !count_steps_app, H1, H2, H3, R1, R2, R3. repeat split; lia.
Qed.

Lemma reveal_kinds box pos lx cp tok last_part full :
  forall letters typed ds,
  Forall animated_step
    (reveal_steps box pos lx cp tok last_part full typed letters ds).
Proof.
  induction letters as [|c letters IH]; intros typed ds; [constructor|].
  destruct ds as [|d ds]; [constructor|]. cbn [reveal_steps].
  constructor; [reflexivity|]. constructor; [reflexivity|apply IH].
Qed.

Lemma animation_kinds box pos lx num : forall ps count cp ds,
  Forall animated_step (animation box pos lx num count cp ps ds).
Proof.
  induction ps as [|part ps IH]; intros count cp ds; [constructor|].
  cbn [animation]. destruct (token_in (token part) continuous).
  - constructor; [reflexivity|]. apply Forall_app. split; [|apply IH].
    destruct (token_eqb _ _); [|constructor].
    constructor; [reflexivity|constructor].
  - apply Forall_app. split; [apply reveal_kinds|apply IH].
Qed.

Lemma animated_length steps :
  Forall animated_step steps ->
  length steps = count_steps is_ReplaceRows steps +
                 count_steps is_Sleep steps + count_steps is_CellEnd steps.
Proof.
  induction 1 as [|s steps Hs _ IH]; [reflexivity|].
  unfold count_steps, animated_step in *. cbn [List.filter length].
  destruct s; try discriminate Hs;
    cbn [is_ReplaceRows is_Sleep is_CellEnd length]; lia.
Qed.

(** X14.  The size of an animation.  For every line that is animated (a
    registered lexer, and no console output line): the compilation
    succeeds with one [Sleep] per letter of the fragments that are typed
    (those whose token type is not continuous), one [ReplaceRows] per such
    letter and per continuous fragment, and one [CellEnd] per
    [Generic.Prompt] fragment; with the first step that inserts the row,
    these are all its steps. *)
Theorem animation_size (pygments : Pygments) (self : TypewriterStep) (pos : Z)
  (line : CodeLine) (g : RandomSource) (p : CodePart) (ps : list CodePart)
  (c : bool) :
  parts line = p :: ps ->
  is_lexer_console (LEXERS pygments) (code_lexer (code self)) = Ok c ->
  c && negb (token_is_a (token p) Generic_Prompt) = false ->
  exists steps g',
    _line_to_steps pygments self line pos g = Ok (steps, g') /\
    count_steps is_Sleep steps = typed_letters (parts line) /\
    count_steps is_ReplaceRows steps =
      continuous_parts (parts line) + typed_letters (parts line) /\
    count_steps is_CellEnd steps = prompt_parts (parts line) /\
    length steps =
      1 + continuous_parts (parts line) + prompt_parts (parts line) +
      2 * typed_letters (parts line).
Proof.
  intros Hp Hc Ha.
  destruct (line_to_steps_animated pygments self pos line g p ps c Hp Hc Ha)
    as (ds & g' & Hlen & E).
  destruct (animation_counts (code_box self) pos (code_lexer (code self))
              (length (parts line)) (parts line) 0 [] ds Hlen)
    as (H1 & H2 & H3).
  eexists; exists g'. split; [exact E|].
  change (InsertRows ?b ?q ?r :: ?a) with ([InsertRows b q r] ++ a).
  rewrite !count_steps_app, H1, H2, H3. repeat split.
  rewrite length_app. cbn [length].
  rewrite (animated_length _ (animation_kinds _ _ _ _ _ _ _ _)), H1, H2, H3.
  lia.
Qed.

Lemma animation_size_witness :
  exists steps g',
    _line_to_steps sample_pygments (AppendTypewriter sample_box console_code)
      (CodeLine_new [mkCodePart Generic_Prompt (py ">>> ");
                     mkCodePart Token_Text (py "x")]
         (PythonConsoleLexer sample_pygments)) 1 sample_random = Ok (steps, g') /\
    count_steps is_Sleep steps = 1 /\
    count_steps is_ReplaceRows steps = 1 + 1 /\
    count_steps is_CellEnd steps = 1 /\
    length steps = 1 + 1 + 1 + 2 * 1.
Proof.
  apply (animation_size sample_pygments
           (AppendTypewriter sample_box console_code) 1
           (CodeLine_new [mkCodePart Generic_Prompt (py ">>> ");
                          mkCodePart Token_Text (py "x")]
              (PythonConsoleLexer sample_pygments))
           sample_random (mkCodePart Generic_Prompt (py ">>> "))
           [mkCodePart Token_Text (py "x")] true); reflexivity.
Defined.

(** ** The row an animation ends on *)

Lemma last_shown_app a : forall sb b,
  last_shown sb (a ++ b) = last_shown (last_shown sb a) b.
Proof.
  induction a as [|s a IH]; intros sb b; [reflexivity|].
  destruct s; cbn [app last_shown]; apply IH.
Qed.

Lemma reveal_last_shown box pos lx cp tok full :
  forall letters typed ds sb,
  letters <> [] ->
  length ds = length letters ->
  full = length typed + length letters ->
  last_shown sb (reveal_steps box pos lx cp tok true full typed letters ds) =
  Some (OneLine (CodeLine_new (cp ++ [mkCodePart tok (typed ++ letters)]) lx)).
Proof.
  induction letters as [|c letters IH]; intros typed ds sb Hne Hlen Hfull;
    [congruence|].
  destruct ds as [|d ds]; [discriminate|]. cbn in Hlen.
  cbn [reveal_steps last_shown]. destruct letters as [|c' letters].
  - destruct ds; [|discriminate]. cbn [reveal_steps last_shown andb].
    replace (length (typed ++ [c]) =? full) with true
      by (symmetry; apply Nat.eqb_eq; rewrite length_app; cbn in *; lia).
    reflexivity.
  - rewrite (IH (typed ++ [c]) ds); [|discriminate|lia|].
    + now rewrite <- app_assoc.
    + rewrite length_app. cbn in *. lia.
Qed.

Lemma ends_visibly_cons part ps :
  ps <> [] -> ends_visibly (part :: ps) = ends_visibly ps.
Proof.
  intros H. unfold ends_visibly. cbn [rev].
  destruct (rev ps) eqn:E; [|reflexivity].
  apply (f_equal (@rev _)) in E. rewrite rev_involutive in E. now destruct H.
Qed.

Lemma animation_last_shown box pos lx num : forall ps count cp ds sb,
  ps <> [] ->
  count + length ps = num ->
  length ds = typed_letters ps ->
  ends_visibly ps = true ->
  last_shown sb (animation box pos lx num count cp ps ds) =
  Some (OneLine (CodeLine_new (cp ++ ps) lx)).
Proof.
  induction ps as [|part ps IH]; intros count cp ds sb Hne Hnum Hlen Hv;
    [congruence|].
  cbn [animation typed_letters length] in *.
  destruct ps as [|part' ps].
  - (* the last fragment *)
    cbn [animation]. unfold ends_visibly in Hv. cbn [rev app] in Hv.
    cbn [length typed_letters] in Hnum, Hlen.
    destruct (token_in (token part) continuous).
    + rewrite app_nil_r. cbn [last_shown].
      now destruct (token_eqb (token part) Generic_Prompt).
    + rewrite app_nil_r. cbn [orb] in Hv. apply negb_true_iff in Hv.
      replace (count + 1 =? num) with true
        by (symmetry; apply Nat.eqb_eq; lia).
      rewrite (reveal_last_shown box pos lx cp (token part)
                 (length (text part)) (text part) []).
      * cbn [app]. now rewrite part_eta.
      * intros E. rewrite E in Hv. discriminate Hv.
      * rewrite length_firstn. cbn [typed_letters] in Hlen. lia.
      * reflexivity.
  - (* an earlier fragment *)
    rewrite ends_visibly_cons in Hv by discriminate.
    replace (cp ++ part :: part' :: ps) with ((cp ++ [part]) ++ part' :: ps)
      by (now rewrite <- app_assoc).
    destruct (token_in (token part) continuous).
    + cbn [last_shown]. rewrite last_shown_app.
      apply IH; [discriminate|cbn [length] in *; lia|lia|exact Hv].
    + rewrite last_shown_app.
      apply IH; [discriminate|cbn [length] in *; lia| |exact Hv].
      rewrite length_skipn. lia.
Qed.

Lemma parsed_line_new lx line :
  parsed_line lx line -> line = CodeLine_new (parts line) lx.
Proof.
  intros (_ & H1 & H2 & H3 & H4). destruct line. cbn in *. subst.
  reflexivity.
Qed.

(** X15.  The animation of a line ends on the line itself.  For every line
    as the parser builds it for the code's lexer, when that lexer is
    registered and the last fragment of the line is continuous or has at
    least one character: the compilation succeeds, and the content of the
    last [InsertRows] or [ReplaceRows] step is exactly the line, with no
    cursor fragment left. *)
Theorem animation_ends_on_line (pygments : Pygments) (self : TypewriterStep)
  (pos : Z) (line : CodeLine) (g : RandomSource) (c : bool) :
  parsed_line (code_lexer (code self)) line ->
  is_lexer_console (LEXERS pygments) (code_lexer (code self)) = Ok c ->
  ends_visibly (parts line) = true ->
  exists steps g',
    _line_to_steps pygments self line pos g = Ok (steps, g') /\
    last_shown None steps = Some (OneLine line).
Proof.
  intros Hpl Hc Hv. pose proof (parsed_line_new _ _ Hpl) as Hline.
  destruct Hpl as (Hne & _).
  destruct (parts line) as [|p ps] eqn:Hp; [congruence|].
  destruct (c && negb (token_is_a (token p) Generic_Prompt)) eqn:Ha.
  - exists [InsertRows (code_box self) pos (OneLine line)], g. split.
    + unfold _line_to_steps. rewrite Hp. cbn [first_item].
      now rewrite rand_bind_lift, Hc, rand_bind_lift, Ha.
    + reflexivity.
  - destruct (line_to_steps_animated pygments self pos line g p ps c Hp Hc Ha)
      as (ds & g' & Hlen & E).
    eexists; exists g'. split; [exact E|]. cbn [last_shown].
    rewrite (animation_last_shown (code_box self) pos (code_lexer (code self))
               (length (parts line)) (parts line) 0 [] ds).
    + cbn [app]. now rewrite Hp, <- Hline.
    + rewrite Hp. discriminate.
    + reflexivity.
    + exact Hlen.
    + now rewrite Hp.
Qed.

Lemma animation_ends_on_line_witness :
  exists steps g',
    _line_to_steps sample_pygments (AppendTypewriter sample_box console_code)
      (CodeLine_new [mkCodePart Generic_Prompt (py ">>> ");
                     mkCodePart Token_Text (py "x")]
         (PythonConsoleLexer sample_pygments)) 1 sample_random = Ok (steps, g') /\
    last_shown None steps =
      Some (OneLine (CodeLine_new [mkCodePart Generic_Prompt (py ">>> ");
                                   mkCodePart Token_Text (py "x")]
                       (PythonConsoleLexer sample_pygments))).
Proof.
  apply (animation_ends_on_line sample_pygments
           (AppendTypewriter sample_box console_code) 1
           (CodeLine_new [mkCodePart Generic_Prompt (py ">>> ");
                          mkCodePart Token_Text (py "x")]
              (PythonConsoleLexer sample_pygments))
           sample_random true);
    [repeat split; discriminate|reflexivity|reflexivity].
Defined.

(** When the last fragment is empty and not continuous, the row left on
    display still ends with the cursor. *)
Example animation_leaves_cursor :
  (fun r => match last_shown None (fst r) with
            | Some (OneLine l) => line_text l
            | _ => []
            end) <$>
    _line_to_steps sample_pygments (AppendTypewriter sample_box python_code)
      (CodeLine_new [mkCodePart Token_Text (py "a"); mkCodePart Token_Text []]
         (PythonLexer sample_pygments)) 1 sample_random
  = Ok (py "a" ++ [9608%N]).
Proof. reflexivity. Qed.

(** ** Whole typewriter actions *)

Lemma map_snd_combine_same {A B} (l : list A) : forall l' : list B,
  length l = length l' -> List.map snd (combine l l') = l'.
Proof.
  induction l as [|x l IH]; intros [|y l'] H; try discriminate H;
    [reflexivity|].
  cbn [combine List.map snd]. f_equal. apply IH. now injection H.
Qed.

Section Steps.

Context (pygments : Pygments) (self : TypewriterStep).

Lemma line_to_steps_unregistered (line : CodeLine) (pos : Z) (g : RandomSource) :
  parts line <> [] ->
  registered_class (lexer_class (code_lexer (code self))) = false ->
  _line_to_steps pygments self line pos g = Raise KeyError.
Proof.
  intros Hne Hr. unfold _line_to_steps.
  destruct (parts line) as [|p ps]; [congruence|]. cbn [first_item].
  rewrite rand_bind_lift, is_lexer_console_cases.
  unfold registered_class in Hr.
  rewrite !orb_false_iff, !String.eqb_neq in Hr.
  destruct Hr as ((H1 & H2) & H3).
  repeat case_decide; try congruence. reflexivity.
Qed.

Lemma registered_console :
  registered_class (lexer_class (code_lexer (code self))) = true ->
  exists c, is_lexer_console (LEXERS pygments) (code_lexer (code self)) = Ok c.
Proof.
  intros Hr. rewrite is_lexer_console_cases. unfold registered_class in Hr.
  rewrite !orb_true_iff, !String.eqb_eq in Hr.
  repeat case_decide; eauto. destruct Hr as [[Hr|Hr]|Hr]; congruence.
Qed.

Lemma compile_each_ok (c : bool) : forall items g,
  is_lexer_console (LEXERS pygments) (code_lexer (code self)) = Ok c ->
  Forall (fun it : CodeLine * Z => parts (fst it) <> []) items ->
  exists steps g', compile_each pygments self items g = Ok (steps, g').
Proof.
  induction items as [|[line pos] items IH]; intros g Hc H;
    [cbn; eauto|].
  apply Forall_cons_iff in H as [Hl Hrest]. cbn [fst] in Hl.
  destruct (line_to_steps_ok pygments self pos line g c Hl Hc)
    as (a & g1 & Ea).
  destruct (IH g1 Hc Hrest) as (b & g' & Eb).
  cbn [compile_each].
  rewrite (rand_bind_ok _ _ _ _ _ Ea), (rand_bind_ok _ _ _ _ _ Eb).
  rewrite rand_ret_ok. eauto.
Qed.

Lemma line_positions_parts lines :
  Forall (fun l => parts l <> []) lines ->
  Forall (fun it : CodeLine * Z => parts (fst it) <> [])
    (line_positions self lines).
Proof.
  intros H. apply List.Forall_forall. intros [l z] Hin.
  apply in_combine_l in Hin. rewrite List.Forall_forall in H. now apply H.
Qed.

Lemma lines_loop_positions lines g :
  lines_loop pygments self 0 lines [] g =
  compile_each pygments self (line_positions self lines) g.
Proof.
  rewrite lines_loop_compile. unfold line_positions.
  destruct (compile_each _ _ _ g) as [[ss g']|e]; reflexivity.
Qed.

(** X16.  [TypewriterStep.steps] parses the code and compiles its lines in
    order, the line of index [i] (from 0) at position [position + i]: an
    [InsertTypewriter] at position [p] types its lines at rows [p], [p + 1],
    and so on, and every step of a line that carries a position carries the
    position of that line. *)
Theorem typewriter_steps_positions (g : RandomSource) :
  exists lines,
    parse_source (source (code self)) (code_lexer (code self)) = Ok lines /\
    TypewriterStep_steps pygments self g =
      compile_each pygments self (line_positions self lines) g /\
    List.map snd (line_positions self lines) =
      List.map (fun i => (position self + Z.of_nat i)%Z)
        (seq 0 (length lines)) /\
    (forall line pos g1 ss g2,
       In (line, pos) (line_positions self lines) ->
       _line_to_steps pygments self line pos g1 = Ok (ss, g2) ->
       Forall (at_position pos) ss).
Proof.
  destruct (parse_source_total (source (code self)) (code_lexer (code self)))
    as (lines & E).
  exists lines. split; [exact E|]. split; [|split].
  - unfold TypewriterStep_steps. rewrite E, rand_bind_lift.
    apply lines_loop_positions.
  - unfold line_positions. apply map_snd_combine_same.
    now rewrite length_map, length_seq.
  - intros line pos g1 ss g2 _ H.
    apply (line_to_steps_positions pygments self _ _ _ _ _ H).
Qed.

(** X17.  [TypewriterStep.steps] succeeds for every source when the class
    of the code's lexer is in the registry.  When it is not, compiling
    raises [KeyError] as soon as the source has a line, and gives no step
    when it has none. *)
Theorem typewriter_steps_errors (g : RandomSource) :
  (registered_class (lexer_class (code_lexer (code self))) = true ->
   exists steps g', TypewriterStep_steps pygments self g = Ok (steps, g')) /\
  (registered_class (lexer_class (code_lexer (code self))) = false ->
   TypewriterStep_steps pygments self g =
   match parse_source (source (code self)) (code_lexer (code self)) with
   | Ok [] => Ok ([], g)
   | _ => Raise KeyError
   end).
Proof.
  destruct (parse_source_total (source (code self)) (code_lexer (code self)))
    as (lines & E).
  pose proof (parse_source_parsed_lines _ _ _ E) as Hl.
  unfold TypewriterStep_steps. rewrite E, rand_bind_lift. split.
  - intros Hr. destruct (registered_console Hr) as (c & Hc).
    rewrite lines_loop_positions. apply (compile_each_ok c); [exact Hc|].
    apply line_positions_parts. eapply List.Forall_impl; [|exact Hl].
    intros l Hp. apply Hp.
  - intros Hr. destruct lines as [|l lines]; [reflexivity|].
    cbn [lines_loop]. apply rand_bind_raise.
    apply line_to_steps_unregistered; [|exact Hr].
    apply Forall_cons_iff in Hl as [Hp _]. apply Hp.
Qed.

End Steps.

Lemma typewriter_steps_positions_witness :
  exists ss g2,
    _line_to_steps sample_pygments (InsertTypewriter sample_box 5 python_code)
      (CodeLine_new [mkCodePart Token_Text (py "c")]
         (PythonLexer sample_pygments)) 6 sample_random = Ok (ss, g2) /\
    Forall (at_position 6) ss.
Proof.
  destruct (_line_to_steps sample_pygments
              (InsertTypewriter sample_box 5 python_code)
              (CodeLine_new [mkCodePart Token_Text (py "c")]
                 (PythonLexer sample_pygments)) 6 sample_random)
    as [[ss g2]|e] eqn:H.
  - exists ss, g2. split; [reflexivity|].
    destruct (typewriter_steps_positions sample_pygments
                (InsertTypewriter sample_box 5 python_code) sample_random)
      as (lines & E & _ & _ & P).
    apply (P (CodeLine_new [mkCodePart Token_Text (py "c")]
                (PythonLexer sample_pygments)) 6%Z sample_random ss g2);
      [|exact H].
    vm_compute in E. injection E as <-. right. left. reflexivity.
  - vm_compute in H. discriminate H.
Defined.

Lemma typewriter_steps_errors_witness :
  (exists steps g',
     TypewriterStep_steps sample_pygments
       (InsertTypewriter sample_box 5 python_code) sample_random =
     Ok (steps, g')) /\
  TypewriterStep_steps sample_pygments
    (AppendTypewriter sample_box
       {| source := py "x" ++ [NL]; code_lexer := whole_lexer |})
    sample_random =
  match parse_source (py "x" ++ [NL]) whole_lexer with
  | Ok [] => Ok ([], sample_random)
  | _ => Raise KeyError
  end.
Proof.
  split.
  - apply (typewriter_steps_errors sample_pygments
             (InsertTypewriter sample_box 5 python_code) sample_random).
    reflexivity.
  - apply (typewriter_steps_errors sample_pygments
             (AppendTypewriter sample_box
                {| source := py "x" ++ [NL]; code_lexer := whole_lexer |})
             sample_random).
    reflexivity.
Defined.

(** ** [ReplaceTypewriter] *)

Section Replace.

Context (pygments : Pygments) (self : TypewriterStep).

Lemma replace_lines_loop_compile : forall lines count steps g,
  replace_lines_loop pygments self count lines steps g =
  match compile_each_after pygments self (remove_row self)
          (combine lines
             (List.map (fun i => (position self + Z.of_nat i)%Z)
                (seq count (length lines)))) g with
  | Ok (ss, g') => Ok (steps ++ ss, g')
  | Raise e => Raise e
  end.
Proof.
  induction lines as [|line lines IH]; intros count steps g.
  - cbn. now rewrite app_nil_r.
  - cbn [replace_lines_loop length seq List.map combine compile_each_after].
    destruct (_line_to_steps pygments self line
                (position self + Z.of_nat count) g) as [[a g1]|e] eqn:E.
    + rewrite !(rand_bind_ok _ _ _ _ _ E), IH.
      destruct (compile_each_after pygments self (remove_row self) _ g1)
        as [[b g2]|e] eqn:Eb.
      * rewrite (rand_bind_ok _ _ _ _ _ Eb), rand_ret_ok.
        unfold remove_row. cbn [app]. now rewrite <- !app_assoc.
      * now rewrite (rand_bind_raise _ _ _ _ Eb).
    + now rewrite !(rand_bind_raise _ _ _ _ E).
Qed.

Lemma animated_no_remove steps :
  Forall animated_step steps -> count_steps is_RemoveRows steps = 0.
Proof.
  induction 1 as [|s l Hs _ IH]; [reflexivity|].
  unfold count_steps, animated_step in *. cbn [List.filter].
  destruct s; try discriminate Hs; exact IH.
Qed.

Lemma line_to_steps_no_remove line pos g ss g' :
  _line_to_steps pygments self line pos g = Ok (ss, g') ->
  count_steps is_RemoveRows ss = 0.
Proof.
  intros E.
  destruct (parts line) as [|p ps] eqn:Hp.
  { unfold _line_to_steps in E. rewrite Hp in E. discriminate E. }
  destruct (is_lexer_console (LEXERS pygments) (code_lexer (code self)))
    as [c|e] eqn:Hc.
  2:{ unfold _line_to_steps in E. rewrite Hp in E. cbn [first_item] in E.
      rewrite rand_bind_lift, Hc in E. discriminate E. }
  destruct (c && negb (token_is_a (token p) Generic_Prompt)) eqn:Ha.
  - unfold _line_to_steps in E. rewrite Hp in E. cbn [first_item] in E.
    rewrite rand_bind_lift, Hc, rand_bind_lift, Ha in E.
    now injection E as <- <-.
  - destruct (line_to_steps_animated pygments self pos line g p ps c Hp Hc Ha)
      as (ds & g1 & _ & E1).
    rewrite E1 in E. injection E as <- <-.
    change (InsertRows ?b ?q ?r :: ?a) with ([InsertRows b q r] ++ a).
    rewrite count_steps_app. cbn [count_steps List.filter is_RemoveRows length].
    apply animated_no_remove, animation_kinds.
Qed.

Lemma compile_each_after_removes : forall items g ss g',
  compile_each_after pygments self (remove_row self) items g = Ok (ss, g') ->
  count_steps is_RemoveRows ss = length items.
Proof.
  induction items as [|[line pos] items IH]; intros g ss g' E.
  - cbn in E. now injection E as <- <-.
  - cbn [compile_each_after] in E.
    destruct (_line_to_steps pygments self line pos g) as [[a g1]|e] eqn:Ea.
    2:{ rewrite (rand_bind_raise _ _ _ _ Ea) in E. discriminate E. }
    rewrite (rand_bind_ok _ _ _ _ _ Ea) in E.
    destruct (compile_each_after pygments self (remove_row self) items g1)
      as [[b g2]|e] eqn:Eb.
    2:{ rewrite (rand_bind_raise _ _ _ _ Eb) in E. discriminate E. }
    rewrite (rand_bind_ok _ _ _ _ _ Eb), rand_ret_ok in E.
    injection E as <- <-.
    unfold remove_row. cbn [app]. unfold count_steps at 1.
    cbn [List.filter is_RemoveRows length]. fold (count_steps is_RemoveRows (a ++ b)).
    rewrite count_steps_app, (line_to_steps_no_remove _ _ _ _ _ Ea),
      (IH _ _ _ Eb).
    reflexivity.
Qed.

(** X18.  [ReplaceTypewriter.steps] compiles like [TypewriterStep.steps]
    with, in front of the steps of each line, one [RemoveRows] step for the
    row at the position of that line (with the default size).  So a
    successful compilation removes exactly as many rows as it types
    lines. *)
Theorem replace_typewriter_steps (g : RandomSource) :
  exists lines,
    parse_source (source (code self)) (code_lexer (code self)) = Ok lines /\
    ReplaceTypewriter_steps pygments self g =
      compile_each_after pygments self (remove_row self) (line_positions self lines) g /\
    (forall steps g',
       ReplaceTypewriter_steps pygments self g = Ok (steps, g') ->
       count_steps is_RemoveRows steps = length lines).
Proof.
  destruct (parse_source_total (source (code self)) (code_lexer (code self)))
    as (lines & E).
  exists lines. split; [exact E|].
  assert (R : ReplaceTypewriter_steps pygments self g =
              compile_each_after pygments self (remove_row self)
                (line_positions self lines) g).
  { unfold ReplaceTypewriter_steps.
    rewrite E, rand_bind_lift, replace_lines_loop_compile.
    unfold line_positions.
    destruct (compile_each_after _ _ _ _ g) as [[ss g']|e]; reflexivity. }
  split; [exact R|]. intros steps g' H. rewrite R in H.
  rewrite (compile_each_after_removes _ _ _ _ H).
  unfold line_positions. rewrite length_combine, length_map, length_seq. lia.
Qed.

End Replace.

Lemma replace_typewriter_steps_witness :
  exists steps g',
    ReplaceTypewriter_steps sample_pygments
      (InsertTypewriter sample_box 3 python_code) sample_random =
      Ok (steps, g') /\
    count_steps is_RemoveRows steps = 2.
Proof.
  destruct (ReplaceTypewriter_steps sample_pygments
              (InsertTypewriter sample_box 3 python_code) sample_random)
    as [[steps g']|e] eqn:H.
  - exists steps, g'. split; [reflexivity|].
    destruct (replace_typewriter_steps sample_pygments
                (InsertTypewriter sample_box 3 python_code) sample_random)
      as (lines & E & _ & P).
    rewrite (P steps g' H). vm_compute in E. injection E as <-. reflexivity.
  - vm_compute in H. discriminate H.
Defined.

(** ** [SuffixTypewriter] *)

Lemma suffix_loop_spec box pos len : forall letters count steps g,
  exists ds g',
    length ds = length letters /\
    suffix_loop box pos len count letters steps g =
    Ok (steps ++ suffix_steps box pos len count letters ds, g').
Proof.
  induction letters as [|c letters IH]; intros count steps g.
  - exists [], g. split; [reflexivity|]. cbn. now rewrite app_nil_r.
  - cbn [suffix_loop].
    destruct (delay_until_next_letter_ok box g) as (d & g1 & Ed).
    rewrite (rand_bind_ok _ _ _ _ _ Ed).
    match goal with
    | |- context [suffix_loop _ _ _ _ _ ?st g1] =>
        destruct (IH (S count) st g1) as (ds & g' & Hlen & E)
    end.
    exists (d :: ds), g'. split; [cbn; lia|].
    rewrite E. cbn [suffix_steps]. now rewrite <- app_assoc.
Qed.

Lemma suffix_steps_rows box pos len : forall letters count ds,
  length ds = length letters ->
  List.map fst (suffix_rows (suffix_steps box pos len count letters ds)) =
    List.map (fun c => [c]) letters /\
  List.map snd (suffix_rows (suffix_steps box pos len count letters ds)) =
    List.map (fun i => Some (negb (Nat.eqb (i + 1) len)))
      (seq count (length letters)) /\
  length (suffix_steps box pos len count letters ds) = 2 * length letters /\
  count_steps is_Sleep (suffix_steps box pos len count letters ds) =
    length letters /\
  Forall (at_position pos) (suffix_steps box pos len count letters ds).
Proof.
  induction letters as [|c letters IH]; intros count ds Hlen.
  - cbn. repeat split; constructor.
  - destruct ds as [|d ds]; [discriminate|]. cbn in Hlen.
    destruct (IH (S count) ds) as (H1 & H2 & H3 & H4 & H5); [lia|].
    cbn [suffix_steps suffix_rows List.map fst snd length seq].
    unfold count_steps in *. cbn [List.filter is_Sleep length].
    rewrite H1, H2, H3, H4. repeat split; try lia.
    constructor; [intros p [= <-]; reflexivity|].
    constructor; [intros p [=]|exact H5].
Qed.

(** X19.  [SuffixTypewriter.steps] never raises.  For a text of [n]
    characters it gives [2 n] steps, [n] of them [Sleep] steps, and every
    step that carries a position carries the action's.  The texts of the
    [SuffixRow] steps, in order, concatenate to the text, and the cursor
    flag is set on all of them but the last. *)
Theorem suffix_typewriter_steps (box : CodeBox) (pos : Z) (source : str)
  (g : RandomSource) :
  exists steps g',
    SuffixTypewriter_steps box pos source g = Ok (steps, g') /\
    length steps = 2 * length source /\
    List.concat (List.map fst (suffix_rows steps)) = source /\
    List.map snd (suffix_rows steps) =
      List.map (fun i => Some (negb (Nat.eqb (i + 1) (length source))))
        (seq 0 (length source)) /\
    count_steps is_Sleep steps = length source /\
    Forall (at_position pos) steps.
Proof.
  unfold SuffixTypewriter_steps.
  destruct (suffix_loop_spec box pos (length source) source 0 [] g)
    as (ds & g' & Hlen & E).
  destruct (suffix_steps_rows box pos (length source) source 0 ds Hlen)
    as (H1 & H2 & H3 & H4 & H5).
  eexists; exists g'. split; [exact E|]. cbn [app].
  rewrite H1. repeat split; try assumption.
  clear. induction source as [|c s IH]; [reflexivity|].
  cbn [List.map concat app]. now rewrite IH.
Qed.

(** An empty suffix gives no step at all. *)
Example suffix_typewriter_empty :
  SuffixTypewriter_steps sample_box 1 [] sample_random = Ok ([], sample_random).
Proof. reflexivity. Qed.

(** ** The single-step actions *)

(** [Append], [Insert] and [Replace] never raise: each compiles to exactly
    one step, and for the same code the three steps carry the same Lines,
    those [parse_source] returns. *)
Corollary single_step_actions (box : CodeBox) (pos : Z) (cd : Code) :
  exists lines,
    parse_source (source cd) (code_lexer cd) = Ok lines /\
    Append_steps box cd = Ok [AddRows box lines] /\
    Insert_steps box pos cd = Ok [InsertRows box pos (ManyLines lines)] /\
    Replace_steps box pos cd = Ok [ReplaceRows box pos (ManyLines lines)].
Proof.
  destruct (parse_source_total (source cd) (code_lexer cd)) as (lines & E).
  exists lines. unfold Append_steps, Insert_steps, Replace_steps.
  rewrite E. repeat split.
Qed.

(** ** What the rows of an animation show *)

Lemma join_texts_app (a b : list CodePart) :
  join_empty (List.map text (a ++ b)) =
  join_empty (List.map text a) ++ join_empty (List.map text b).
Proof. unfold join_empty. now rewrite List.map_app, concat_app. Qed.

Lemma join_texts_one (p : CodePart) : join_empty (List.map text [p]) = text p.
Proof. unfold join_empty. cbn. now rewrite app_nil_r. Qed.

Lemma reveal_prefixes box pos lx cp tok last_part full rest :
  forall letters typed ds,
  Forall (shows_prefix (join_empty (List.map text cp) ++
                        (typed ++ letters) ++ rest))
    (reveal_steps box pos lx cp tok last_part full typed letters ds).
Proof.
  induction letters as [|c letters IH]; intros typed ds; [constructor|].
  destruct ds as [|d ds]; [constructor|]. cbn [reveal_steps].
  constructor; [|constructor; [exact I|]].
  - cbn [shows_prefix]. exists (join_empty (List.map text cp) ++ typed ++ [c]),
      (letters ++ rest).
    split; [now rewrite <- !app_assoc|].
    destruct (negb _); cbn [CodeLine_new CodeLine_init line_text].
    + right. rewrite !join_texts_app, !join_texts_one. cbn [text cursor_part].
      now rewrite <- !app_assoc.
    + left. now rewrite join_texts_app, join_texts_one.
  - replace (typed ++ c :: letters) with ((typed ++ [c]) ++ letters)
      by (now rewrite <- app_assoc).
    apply IH.
Qed.

Lemma animation_prefixes box pos lx num : forall ps count cp ds,
  Forall (shows_prefix (join_empty (List.map text (cp ++ ps))))
    (animation box pos lx num count cp ps ds).
Proof.
  induction ps as [|part ps IH]; intros count cp ds; [constructor|].
  cbn [animation].
  replace (cp ++ part :: ps) with ((cp ++ [part]) ++ ps)
    by (now rewrite <- app_assoc).
  destruct (token_in (token part) continuous).
  - constructor; [|apply Forall_app; split; [|apply IH]].
    + cbn [shows_prefix]. exists (join_empty (List.map text (cp ++ [part]))),
        (join_empty (List.map text ps)).
      split; [apply join_texts_app|now left].
    + destruct (token_eqb _ _); [|constructor].
      constructor; [exact I|constructor].
  - apply Forall_app. split; [|apply IH].
    rewrite !join_texts_app, join_texts_one, <- app_assoc.
    apply (reveal_prefixes box pos lx cp (token part) (Nat.eqb (count + 1) num)
             (length (text part)) (join_empty (List.map text ps))
             (text part) []).
Qed.

(** X20.  Every row of an animation shows a prefix of the line: for every
    line that is animated, the compilation succeeds, and the text of the row
    of each [ReplaceRows] step is a prefix of the concatenation of the
    fragments' texts, alone or followed by the single cursor glyph; nothing
    else is ever shown. *)
Theorem animation_shows_prefixes (pygments : Pygments) (self : TypewriterStep)
  (pos : Z) (line : CodeLine) (g : RandomSource) (p : CodePart)
  (ps : list CodePart) (c : bool) :
  parts line = p :: ps ->
  is_lexer_console (LEXERS pygments) (code_lexer (code self)) = Ok c ->
  c && negb (token_is_a (token p) Generic_Prompt) = false ->
  exists steps g',
    _line_to_steps pygments self line pos g = Ok (steps, g') /\
    Forall (shows_prefix (join_empty (List.map text (parts line)))) steps.
Proof.
  intros Hp Hc Ha.
  destruct (line_to_steps_animated pygments self pos line g p ps c Hp Hc Ha)
    as (ds & g' & _ & E).
  eexists; exists g'. split; [exact E|].
  constructor; [exact I|].
  apply (animation_prefixes (code_box self) pos (code_lexer (code self))
           (length (parts line)) (parts line) 0 [] ds).
Qed.

Lemma animation_shows_prefixes_witness :
  exists steps g',
    _line_to_steps sample_pygments (AppendTypewriter sample_box python_code)
      (CodeLine_new [mkCodePart Token_Text (py "ab")]
         (PythonLexer sample_pygments)) 1 sample_random = Ok (steps, g') /\
    Forall (shows_prefix
              (join_empty
                 (List.map text
                    (parts (CodeLine_new [mkCodePart Token_Text (py "ab")]
                              (PythonLexer sample_pygments)))))) steps.
Proof.
  apply (animation_shows_prefixes sample_pygments
           (AppendTypewriter sample_box python_code) 1
           (CodeLine_new [mkCodePart Token_Text (py "ab")]
              (PythonLexer sample_pygments))
           sample_random (mkCodePart Token_Text (py "ab")) [] false);
    reflexivity.
Defined.

(** ** Random draws *)

Lemma delay_draws box g d g' :
  delay_until_next_letter box g = Ok (d, g') ->
  drawn g' = S (drawn g) /\ draws g' = draws g.
Proof.
  unfold delay_until_next_letter.
  destruct (randint_range 0 (2 * Z.of_N (delay_variance (settings (screen box)))) g)
    as (r & E & _); [lia|].
  rewrite (rand_bind_ok _ _ _ _ _ E), rand_ret_ok. now intros [= <- <-].
Qed.

Lemma letters_loop_draws self pos count num part :
  forall letters typed cp steps g r g',
  letters_loop self pos count num part letters typed cp steps g = Ok (r, g') ->
  drawn g' = drawn g + length letters /\ draws g' = draws g.
Proof.
  induction letters as [|c letters IH]; intros typed cp steps g r g' E.
  - cbn in E. injection E as <- <-. split; [cbn; lia|reflexivity].
  - cbn [letters_loop] in E.
    destruct (set_last cp _) as [cp1|e]; [|discriminate E].
    rewrite rand_bind_lift in E.
    destruct (delay_until_next_letter (code_box self) g) as [[d g1]|e] eqn:Ed.
    + rewrite (rand_bind_ok _ _ _ _ _ Ed) in E.
      apply IH in E as (E1 & E2). apply delay_draws in Ed as (D1 & D2).
      split; [cbn [length]; lia|congruence].
    + rewrite (rand_bind_raise _ _ _ _ Ed) in E. discriminate E.
Qed.

Lemma parts_loop_draws self pos num : forall ps count cp steps g r g',
  parts_loop self pos num count ps cp steps g = Ok (r, g') ->
  drawn g' = drawn g + typed_letters ps /\ draws g' = draws g.
Proof.
  induction ps as [|part ps IH]; intros count cp steps g r g' E.
  - cbn in E. injection E as <- <-. split; [cbn; lia|reflexivity].
  - cbn [parts_loop typed_letters] in *.
    destruct (token_in (token part) continuous).
    + apply IH in E as (E1 & E2). split; [lia|exact E2].
    + destruct (letters_loop self pos count num part (text part) []
                  (cp ++ [mkCodePart (token part) []]) steps g)
        as [[[cp1 st1] g1]|e] eqn:El.
      * rewrite (rand_bind_ok _ _ _ _ _ El) in E.
        apply IH in E as (E1 & E2).
        apply letters_loop_draws in El as (L1 & L2).
        split; [lia|congruence].
      * rewrite (rand_bind_raise _ _ _ _ El) in E. discriminate E.
Qed.

(** X21.  The typewriter takes one random draw per [Sleep] step and
    nothing else from the random source: when a line compiles, the number
    of draws made grows by the number of [Sleep] steps of the result, which
    is at most the number of letters of the line's non-continuous
    fragments, and the generator itself is unchanged. *)
Theorem line_to_steps_draws (pygments : Pygments) (self : TypewriterStep)
  (pos : Z) (line : CodeLine) (g : RandomSource) (steps : list Step)
  (g' : RandomSource) :
  _line_to_steps pygments self line pos g = Ok (steps, g') ->
  drawn g' = drawn g + count_steps is_Sleep steps /\
  draws g' = draws g /\
  count_steps is_Sleep steps <= typed_letters (parts line).
Proof.
  intros E.
  destruct (parts line) as [|p ps] eqn:Hp.
  { unfold _line_to_steps in E. rewrite Hp in E. discriminate E. }
  destruct (is_lexer_console (LEXERS pygments) (code_lexer (code self)))
    as [c|e] eqn:Hc.
  2:{ unfold _line_to_steps in E. rewrite Hp in E. cbn [first_item] in E.
      rewrite rand_bind_lift, Hc in E. discriminate E. }
  destruct (c && negb (token_is_a (token p) Generic_Prompt)) eqn:Ha.
  - unfold _line_to_steps in E. rewrite Hp in E. cbn [first_item] in E.
    rewrite rand_bind_lift, Hc, rand_bind_lift, Ha in E.
    injection E as <- <-. cbn. repeat split; lia.
  - rewrite <- Hp in *.
    destruct (line_to_steps_animated pygments self pos line g p ps c Hp Hc Ha)
      as (ds & g1 & Hlen & E1).
    assert (D : drawn g' = drawn g + typed_letters (parts line) /\
                draws g' = draws g).
    { unfold _line_to_steps in E. rewrite Hp in E at 1. cbn [first_item] in E.
      rewrite rand_bind_lift, Hc, rand_bind_lift, Ha in E.
      match type of E with
      | (parts_loop ?s ?q ?n ?k ?l ?cp ?st ≫= _) _ = _ =>
          destruct (parts_loop s q n k l cp st g) as [[[cp1 st1] g2]|e] eqn:Ep
      end.
      - rewrite (rand_bind_ok _ _ _ _ _ Ep), rand_ret_ok in E.
        injection E as _ <-.
        apply (parts_loop_draws _ _ _ _ _ _ _ _ _ _ Ep).
      - rewrite (rand_bind_raise _ _ _ _ Ep) in E. discriminate E. }
    rewrite E1 in E. injection E as <- _.
    change (InsertRows ?b ?q ?r :: ?a) with ([InsertRows b q r] ++ a).
    rewrite count_steps_app.
    destruct (animation_counts (code_box self) pos (code_lexer (code self))
                (length (parts line)) (parts line) 0 [] ds Hlen)
      as (_ & -> & _).
    cbn [count_steps List.filter is_Sleep length]. destruct D as (D1 & D2).
    repeat split; try assumption; lia.
Qed.

Lemma line_to_steps_draws_witness :
  exists steps g',
    _line_to_steps sample_pygments (AppendTypewriter sample_box python_code)
      (CodeLine_new [mkCodePart Token_Text (py "ab")]
         (PythonLexer sample_pygments)) 1 sample_random = Ok (steps, g') /\
    drawn g' = drawn sample_random + count_steps is_Sleep steps.
Proof.
  destruct (_line_to_steps sample_pygments
              (AppendTypewriter sample_box python_code)
              (CodeLine_new [mkCodePart Token_Text (py "ab")]
                 (PythonLexer sample_pygments)) 1 sample_random)
    as [[steps g']|e] eqn:H.
  - exists steps, g'. split; [reflexivity|].
    apply (line_to_steps_draws sample_pygments
             (AppendTypewriter sample_box python_code) 1
             (CodeLine_new [mkCodePart Token_Text (py "ab")]
                (PythonLexer sample_pygments)) sample_random steps g' H).
  - vm_compute in H. discriminate H.
Defined.
